(** * OpenCode Skills Plugin: a shallow embedding of [src/index.ts]

    The plugin discovers [SKILL.md] bundles below a list of root directories,
    validates the YAML header of each against a zod schema, derives a tool
    name from the bundle's directory chain, and on invocation renders the
    bundle's body together with the paths of its resource files.

    Conventions of the embedding.
    - A JavaScript string is the list of its UTF-16 code units ([list N]);
      [length] is then the [.length] of the source and every character test
      of the source is a test on one code unit.
    - Paths are POSIX paths ([sep] is the slash). The functions of Node's
      [path] module are modelled after their documented POSIX behaviour.
      [Path.resolve] and [Path.relative] are those of a process whose
      working directory is the root; on absolute paths they are the
      functions of every process ([resolve_from_absolute],
      [relative_from_absolute]).
    - A directory is the list of its entries in the order the system lists
      them; a scan reports the files of a directory in that order and then
      enters its subdirectories, the one listed last first.
    - [console.error] and [console.warn] append to a log that is threaded
      through the functions in a writer monad.
    - A thrown exception is the [Throw] case of [Result]. *)

From Stdlib Require Import String Ascii NArith ZArith Lia.
From stdpp Require Import base option list gmap pretty.

Local Open Scope N_scope.
Local Open Scope list_scope.

(** ** JavaScript strings *)

Abbreviation jsstring := (list N) (only parsing).

(** The code units of an ASCII literal. *)
Definition js (s : string) : jsstring :=
  N_of_ascii <$> list_ascii_of_string s.
Arguments js _%_string.

Module Ch.
Definition TAB : N := 9.
Definition LF : N := 10.
Definition VT : N := 11.
Definition FF : N := 12.
Definition CR : N := 13.
Definition SPACE : N := 32.
Definition DQUOTE : N := 34.
Definition DOLLAR : N := 36.
Definition PERCENT : N := 37.
Definition AMP : N := 38.
Definition QUOTE : N := 39.
Definition HYPHEN : N := 45.
Definition DOT : N := 46.
Definition SLASH : N := 47.
Definition UNDERSCORE : N := 95.
Definition BACKTICK : N := 96.
(** U+274C, the cross mark that opens the error messages. *)
Definition CROSS : N := 10060.
End Ch.

(** [String.prototype.split] for a separator of one code unit. *)
Fixpoint split (sep : N) (s : jsstring) : list jsstring :=
  match s with
  | [] => [[]]
  | c :: s' =>
      if c =? sep then [] :: split sep s'
      else match split sep s' with
           | [] => [[c]]
           | w :: ws => (c :: w) :: ws
           end
  end.

(** [Array.prototype.join]. *)
Fixpoint join (sep : jsstring) (l : list jsstring) : jsstring :=
  match l with
  | [] => []
  | [x] => x
  | x :: l' => x ++ sep ++ join sep l'
  end.

(** [s.replace(/-/g, "_")]: the replacement text holds no dollar sign, so
    every hyphen becomes one underscore. *)
Definition replace_hyphens (s : jsstring) : jsstring :=
  (λ c, if c =? Ch.HYPHEN then Ch.UNDERSCORE else c) <$> s.

(** The longest prefix (resp. the rest) of code units satisfying [p]. *)
Fixpoint take_while (p : N → bool) (s : jsstring) : jsstring :=
  match s with
  | c :: s' => if p c then c :: take_while p s' else []
  | [] => []
  end.

Fixpoint drop_while (p : N → bool) (s : jsstring) : jsstring :=
  match s with
  | c :: s' => if p c then drop_while p s' else s
  | [] => []
  end.

(** White space and line terminators of ECMAScript, as [trim] strips them. *)
Definition is_js_space (c : N) : bool :=
  (c =? Ch.TAB) || (c =? Ch.LF) || (c =? Ch.VT) || (c =? Ch.FF) ||
  (c =? Ch.CR) || (c =? Ch.SPACE) || (c =? 160) || (c =? 5760) ||
  ((8192 <=? c) && (c <=? 8202)) || (c =? 8232) || (c =? 8233) ||
  (c =? 8239) || (c =? 8287) || (c =? 12288) || (c =? 65279).

(** [String.prototype.trim]. *)
Definition trim (s : jsstring) : jsstring :=
  reverse (drop_while is_js_space (reverse (drop_while is_js_space s))).

(** ** Node's [path] module (POSIX) *)

Module Path.

Definition is_slash (c : N) : bool := c =? Ch.SLASH.
Definition not_slash (c : N) : bool := negb (c =? Ch.SLASH).

(** [path.dirname]. Node scans the path from its end down to index 1:
    it skips trailing slashes, then the last component, and cuts at the
    slash before that component. *)
Definition dirname (path : jsstring) : jsstring :=
  match path with
  | [] => js "."
  | c :: rest =>
      let hasRoot := c =? Ch.SLASH in
      let r := drop_while not_slash (drop_while is_slash (reverse rest)) in
      match r with
      | [] => if hasRoot then js "/" else js "."
      | _ :: before =>
          if hasRoot && bool_decide (before = []) then js "//"
          else c :: reverse before
      end
  end.

(** [path.basename] without suffix: trailing slashes are dropped and the
    last component is kept. *)
Definition basename (path : jsstring) : jsstring :=
  reverse (take_while not_slash (drop_while is_slash (reverse path))).

(** One step of Node's [normalizeString] on an absolute path: empty and
    [.] segments vanish, [..] removes the segment before it (and vanishes
    at the root). The stack [acc] is most recent first. *)
Definition normalize_step (acc : list jsstring) (seg : jsstring)
    : list jsstring :=
  if bool_decide (seg = []) then acc
  else if bool_decide (seg = js ".") then acc
  else if bool_decide (seg = js "..") then tail acc
  else seg :: acc.

(** [path.resolve] with the working directory of the process as a
    parameter, as the list of the segments of the result. Node puts
    [process.cwd()], which is absolute, before a path that does not begin
    with a slash, and normalizes. *)
Definition resolve_from (cwd path : jsstring) : list jsstring :=
  let full :=
    match path with
    | c :: _ => if c =? Ch.SLASH then path else cwd ++ js "/" ++ path
    | [] => cwd
    end in
  reverse (foldl normalize_step [] (split Ch.SLASH full)).

(** [path.resolve] in a process whose working directory is the root, as
    the list of the segments of the result. On an absolute path this is
    [resolve_from] for every working directory; a path that is not
    absolute is read from the root directory. *)
Definition resolve (path : jsstring) : list jsstring :=
  reverse (foldl normalize_step [] (split Ch.SLASH path)).

(** The absolute path with the given segments. *)
Definition absolute (segs : list jsstring) : jsstring :=
  Ch.SLASH :: join (js "/") segs.

(** Drops the longest common prefix of two segment lists. *)
Fixpoint strip_common (from to : list jsstring)
    : list jsstring * list jsstring :=
  match from, to with
  | f :: from', t :: to' =>
      if bool_decide (f = t) then strip_common from' to' else (from, to)
  | _, _ => (from, to)
  end.

(** [path.relative]: both paths are resolved; one [..] climbs out of each
    segment of [from] below the common ancestor, then the rest of [to]
    follows. *)
Definition relative (from to : jsstring) : jsstring :=
  let '(up, down) := strip_common (resolve from) (resolve to) in
  join (js "/") (((λ _, js "..") <$> up) ++ down).

(** [path.relative] with the working directory of the process as a
    parameter; [relative] is the case of the root directory, and of two
    absolute paths in any working directory. *)
Definition relative_from (cwd from to : jsstring) : jsstring :=
  let '(up, down) :=
    strip_common (resolve_from cwd from) (resolve_from cwd to) in
  join (js "/") (((λ _, js "..") <$> up) ++ down).

(** One step of [normalizeString] on a path that is not absolute: [..]
    removes the segment before it unless there is none or it is [..]
    itself, in which case the [..] is kept. *)
Definition normalize_rel_step (acc : list jsstring) (seg : jsstring)
    : list jsstring :=
  if bool_decide (seg = []) then acc
  else if bool_decide (seg = js ".") then acc
  else if bool_decide (seg = js "..") then
    match acc with
    | top :: rest => if bool_decide (top = js "..") then seg :: acc else rest
    | [] => [seg]
    end
  else seg :: acc.

(** [path.normalize]: the segments are normalized, a leading slash and a
    trailing slash are kept, and the empty result is [.] (or [/], or
    [./]). *)
Definition normalize (path : jsstring) : jsstring :=
  match path with
  | [] => js "."
  | c :: _ =>
      let isAbsolute := c =? Ch.SLASH in
      let trailingSeparator := bool_decide (last path = Some Ch.SLASH) in
      let step := if isAbsolute then normalize_step else normalize_rel_step in
      let body := join (js "/") (reverse (foldl step [] (split Ch.SLASH path))) in
      match body with
      | [] =>
          if isAbsolute then js "/"
          else if trailingSeparator then js "./" else js "."
      | _ =>
          (if isAbsolute then js "/" else [])
            ++ body ++ (if trailingSeparator then js "/" else [])
      end
  end.

(** [path.join]: the arguments that are not empty are joined with slashes
    and the result is normalized; with nothing to join the result is
    [.]. *)
Definition join (args : list jsstring) : jsstring :=
  match filter (λ arg, arg ≠ []) args with
  | [] => js "."
  | parts => normalize (join (js "/") parts)
  end.

End Path.

(** ** Tool names *)

(** [generateToolName] of the source. *)
Definition generateToolName (skillPath baseDir : jsstring) : jsstring :=
  let rel := Path.relative baseDir skillPath in
  let dirPath := Path.dirname rel in
  let components :=
    filter (λ c, c ≠ js ".") (split Ch.SLASH dirPath) in
  js "skills_" ++ replace_hyphens (join (js "_") components).

(** ** Results and the console *)

(** The outcome of a call that may throw; [Throw] carries the error's
    message. *)
Inductive Result (A : Type) : Type :=
| Ok (a : A)
| Throw (message : jsstring).
Arguments Ok {A} a.
Arguments Throw {A} message.

(** An argument of a console call: a string, or an array of strings. *)
Inductive ConsoleArg : Type :=
| CStr (s : jsstring)
| CArr (items : list jsstring).

Inductive LogLevel : Type := LogError | LogWarn.

(** One call of [console.error] or [console.warn] with its arguments. *)
Record LogEntry : Type := mkLog {
  log_level : LogLevel;
  log_args : list ConsoleArg
}.

(** A computation that writes to the console: its value and the calls it
    made, in order. *)
Definition Console (A : Type) : Type := A * list LogEntry.

Definition console_ret {A} (a : A) : Console A := (a, []).

Definition console_bind {A B} (m : Console A) (k : A → Console B)
    : Console B :=
  let '(a, l1) := m in
  let '(b, l2) := k a in
  (b, l1 ++ l2).

Notation "'let*' x ':=' m 'in' k" := (console_bind m (λ x, k))
  (at level 10, x name, m at level 100, k at level 200, only parsing).
Notation "m ';;;' k" := (console_bind m (λ _, k))
  (at level 100, k at level 200, only parsing).

Definition console_error (args : list ConsoleArg) : Console unit :=
  (tt, [mkLog LogError args]).

Definition console_warn (args : list ConsoleArg) : Console unit :=
  (tt, [mkLog LogWarn args]).

(** [for (const x of xs) acc = body(acc, x)] in the console monad. *)
Fixpoint console_fold {A B} (body : A → B → Console A) (acc : A)
    (xs : list B) : Console A :=
  match xs with
  | [] => console_ret acc
  | x :: xs' => let* acc' := body acc x in console_fold body acc' xs'
  end.

(** [xs.forEach(body)]. *)
Definition console_forEach {B} (body : B → Console unit) (xs : list B)
    : Console unit :=
  console_fold (λ _ x, body x) tt xs.

(** ** Header values and the zod schema *)

(** A value of the parsed YAML header. Of a number and of a date only the
    type is ever inspected. *)
Inductive JsValue : Type :=
| JNull
| JBool (b : bool)
| JNumber (n : Z)
| JDate (ms : Z)
| JString (s : jsstring)
| JArray (items : list JsValue)
| JObject (fields : list (jsstring * JsValue)).

(** Property lookup in the fields of an object; the keys of a parsed
    header are distinct. *)
Fixpoint assoc {V} (k : jsstring) (fields : list (jsstring * V))
    : option V :=
  match fields with
  | [] => None
  | (k', v) :: fields' =>
      if bool_decide (k' = k) then Some v else assoc k fields'
  end.

(** [data[k]]: [None] stands for [undefined]. *)
Definition get_field (k : jsstring) (data : JsValue) : option JsValue :=
  match data with
  | JObject fields => assoc k fields
  | _ => None
  end.

(** A key of an issue's path: a property name or an array index. *)
Inductive PathKey : Type :=
| Key (k : jsstring)
| Index (i : nat).

Definition path_key_string (p : PathKey) : jsstring :=
  match p with
  | Key k => k
  | Index i => js (pretty (N.of_nat i))
  end.

Record ZodIssue : Type := mkIssue {
  issue_path : list PathKey;
  issue_message : jsstring
}.

(** The result of parsing with a zod schema: the typed value, or the issues
    that were found. *)
Inductive Parsed (A : Type) : Type :=
| POk (a : A)
| PFail (issues : list ZodIssue).
Arguments POk {A} a.
Arguments PFail {A} issues.

Definition parsed_issues {A} (p : Parsed A) : list ZodIssue :=
  match p with
  | POk _ => []
  | PFail issues => issues
  end.

(** The parts of a composite schema are all parsed and their issues are
    collected in order. *)
Definition parsed_ap {A B} (pf : Parsed (A → B)) (pa : Parsed A)
    : Parsed B :=
  match pf, pa with
  | POk f, POk a => POk (f a)
  | _, _ => PFail (parsed_issues pf ++ parsed_issues pa)
  end.

Module Zod.

(** zod's name for the type of a value. *)
Definition typeName (v : option JsValue) : jsstring :=
  match v with
  | None => js "undefined"
  | Some JNull => js "null"
  | Some (JBool _) => js "boolean"
  | Some (JNumber _) => js "number"
  | Some (JDate _) => js "date"
  | Some (JString _) => js "string"
  | Some (JArray _) => js "array"
  | Some (JObject _) => js "object"
  end.

(** The issue of zod's default error map for a value of the wrong type. *)
Definition invalid_type (expected : jsstring) (v : option JsValue)
    (path : list PathKey) : ZodIssue :=
  mkIssue path
    match v with
    | None => js "Required"
    | Some _ =>
        js "Expected " ++ expected ++ js ", received " ++ typeName v
    end.

(** A refinement of a string: its test and the message when it fails. *)
Definition Check : Type := (jsstring → bool) * jsstring.

(** [z.string()] with a chain of checks: every failing check adds its
    issue. *)
Definition string (checks : list Check) (path : list PathKey)
    (v : option JsValue) : Parsed jsstring :=
  match v with
  | Some (JString s) =>
      match omap (λ c : Check,
                    if c.1 s then None else Some (mkIssue path c.2))
                 checks with
      | [] => POk s
      | issues => PFail issues
      end
  | _ => PFail [invalid_type (js "string") v path]
  end.

(** [schema.optional()]: [undefined] is accepted as it is. *)
Definition optional {A} (schema : list PathKey → option JsValue → Parsed A)
    (path : list PathKey) (v : option JsValue) : Parsed (option A) :=
  match v with
  | None => POk None
  | Some _ => parsed_ap (POk Some) (schema path v)
  end.

(** The items of an array, each parsed at its index. *)
Fixpoint items {A} (schema : list PathKey → option JsValue → Parsed A)
    (path : list PathKey) (i : nat) (l : list JsValue)
    : Parsed (list A) :=
  match l with
  | [] => POk []
  | v :: l' =>
      parsed_ap (parsed_ap (POk cons) (schema (path ++ [Index i]) (Some v)))
                (items schema path (S i) l')
  end.

(** [z.array(schema)]. *)
Definition array {A} (schema : list PathKey → option JsValue → Parsed A)
    (path : list PathKey) (v : option JsValue) : Parsed (list A) :=
  match v with
  | Some (JArray l) => items schema path 0%nat l
  | _ => PFail [invalid_type (js "array") v path]
  end.

(** The values of an object, each parsed at its key. *)
Fixpoint entries {A} (schema : list PathKey → option JsValue → Parsed A)
    (path : list PathKey) (fields : list (jsstring * JsValue))
    : Parsed (list (jsstring * A)) :=
  match fields with
  | [] => POk []
  | (k, v) :: fields' =>
      parsed_ap
        (parsed_ap (POk (λ a, cons (k, a)))
                   (schema (path ++ [Key k]) (Some v)))
        (entries schema path fields')
  end.

(** [z.record(schema)]. *)
Definition record {A} (schema : list PathKey → option JsValue → Parsed A)
    (path : list PathKey) (v : option JsValue)
    : Parsed (list (jsstring * A)) :=
  match v with
  | Some (JObject fields) => entries schema path fields
  | _ => PFail [invalid_type (js "object") v path]
  end.

End Zod.

(** [SkillFrontmatter], the type the schema infers. *)
Record SkillFrontmatter : Type := mkFrontmatter {
  fm_name : jsstring;
  fm_description : jsstring;
  fm_license : option jsstring;
  fm_allowed_tools : option (list jsstring);
  fm_metadata : option (list (jsstring * jsstring))
}.

Definition is_lower (c : N) : bool := (97 <=? c) && (c <=? 122).
Definition is_digit (c : N) : bool := (48 <=? c) && (c <=? 57).

(** [/^[a-z0-9-]+$/.test(s)]. *)
Definition name_regex_test (s : jsstring) : bool :=
  match s with
  | [] => false
  | _ => forallb (λ c, is_lower c || is_digit c || (c =? Ch.HYPHEN)) s
  end.

Definition name_checks : list Zod.Check :=
  [ (name_regex_test,
     js "Name must be lowercase alphanumeric with hyphens");
    ((λ s, negb (length s <? 1)%nat), js "Name cannot be empty") ].

Definition description_checks : list Zod.Check :=
  [ ((λ s, negb (length s <? 20)%nat),
     js "Description must be at least 20 characters for discoverability") ].

(** [SkillFrontmatterSchema.parse(data)]: the keys of the shape are parsed
    in order; keys outside the shape are stripped. *)
Definition SkillFrontmatterSchema_parse (data : JsValue)
    : Parsed SkillFrontmatter :=
  match data with
  | JObject _ =>
      parsed_ap (parsed_ap (parsed_ap (parsed_ap (parsed_ap
        (POk mkFrontmatter)
        (Zod.string name_checks [Key (js "name")]
           (get_field (js "name") data)))
        (Zod.string description_checks [Key (js "description")]
           (get_field (js "description") data)))
        (Zod.optional (Zod.string []) [Key (js "license")]
           (get_field (js "license") data)))
        (Zod.optional (Zod.array (Zod.string [])) [Key (js "allowed-tools")]
           (get_field (js "allowed-tools") data)))
        (Zod.optional (Zod.record (Zod.string [])) [Key (js "metadata")]
           (get_field (js "metadata") data))
  | _ => PFail [Zod.invalid_type (js "object") (Some data) []]
  end.

(** ** The file system and Bun's [Glob] *)

(** A directory entry: a file with the outcome of reading its text, or a
    directory with its entries. Symbolic links are not modelled. *)
Inductive Entry : Type :=
| File (name : jsstring) (text : Result jsstring)
| Dir (name : jsstring) (children : list Entry).

Definition entry_name (e : Entry) : jsstring :=
  match e with
  | File n _ => n
  | Dir n _ => n
  end.

(** The file system is the list of the entries of its root directory. *)
Abbreviation FileSystem := (list Entry).

Fixpoint find_child (name : jsstring) (es : list Entry) : option Entry :=
  match es with
  | [] => None
  | e :: es' =>
      if bool_decide (entry_name e = name) then Some e
      else find_child name es'
  end.

(** The entries of the directory reached from [es] along [segs]. *)
Fixpoint lookup_dir (es : list Entry) (segs : list jsstring)
    : option (list Entry) :=
  match segs with
  | [] => Some es
  | s :: segs' =>
      match find_child s es with
      | Some (Dir _ ch) => lookup_dir ch segs'
      | _ => None
      end
  end.

(** The text of the file reached from [es] along [segs]. *)
Fixpoint lookup_file (es : list Entry) (segs : list jsstring)
    : option (Result jsstring) :=
  match segs with
  | [] => None
  | [s] =>
      match find_child s es with
      | Some (File _ text) => Some text
      | _ => None
      end
  | s :: segs' =>
      match find_child s es with
      | Some (Dir _ ch) => lookup_file ch segs'
      | _ => None
      end
  end.

(** The two patterns of the source: [**/*] and [**/NAME] for a literal
    file name. *)
Inductive GlobPattern : Type :=
| GlobAnyFile
| GlobNamed (name : jsstring).

(** A name that begins with a period. *)
Definition hidden (name : jsstring) : bool :=
  match name with
  | c :: _ => c =? Ch.DOT
  | [] => false
  end.

(** The last component of the pattern against a file name. [scan] is
    called without [dot: true], so the wildcard does not match a name that
    begins with a period. *)
Definition glob_file_matches (pat : GlobPattern) (name : jsstring) : bool :=
  match pat with
  | GlobAnyFile => negb (hidden name)
  | GlobNamed n => bool_decide (name = n)
  end.

Definition is_dir (e : Entry) : bool :=
  match e with
  | Dir _ _ => true
  | File _ _ => false
  end.

(** The order in which the walker reports what it finds in one directory.
    [found] has, for each entry of the listing in turn, whether it is a
    directory and the matches at or below it. The files of the directory
    are reported as the listing has them; its subdirectories are entered
    after that, the one listed last first, since the walker keeps the
    directories it has yet to enter on a stack. *)
Definition walk_order {X} (found : list (bool * list X)) : list X :=
  concat (map snd (filter (λ f, f.1 = false) found))
    ++ concat (map snd (reverse (filter (λ f, f.1 = true) found))).

(** The matches below an entry, as chains of names from that entry on.
    Only files are reported ([onlyFiles] is on by default), and the double
    star does not descend into a directory whose name begins with a
    period. *)
Fixpoint walk (pat : GlobPattern) (e : Entry) : list (list jsstring) :=
  match e with
  | File n _ => if glob_file_matches pat n then [[n]] else []
  | Dir n ch =>
      if hidden n then []
      else cons n <$> walk_order (map (λ c, (is_dir c, walk pat c)) ch)
  end.

(** The matches below the entries of a listing. *)
Definition walk_entries (pat : GlobPattern) (es : list Entry)
    : list (list jsstring) :=
  walk_order (map (λ c, (is_dir c, walk pat c)) es).

(** ** Prompt templates *)

Definition SKILL_PROMPT : jsstring :=
  js "<skill name=" ++ [Ch.DQUOTE] ++ js "%{name}" ++ [Ch.DQUOTE] ++ js ">"
    ++ [Ch.LF; Ch.LF] ++ js "%{content}" ++ [Ch.LF; Ch.LF] ++ js "</skill>".

Definition RESOURCES_PROMPT : jsstring :=
  js "<skill_resources>" ++ [Ch.LF]
    ++ js "IMPORTANT: The skill %{name} may reference certain resource files."
    ++ js " Use their full paths:" ++ [Ch.LF; Ch.LF]
    ++ js "%{paths}" ++ [Ch.LF] ++ js "</skill_resources>".

(** [GetSubstitution] of ECMAScript for a search by string (there are no
    captures): in the replacement text a dollar sign followed by a dollar
    sign stands for one dollar sign, followed by an ampersand for the
    matched text, by a backtick for the text before the match, and by a
    quote for the text after it; every other code unit stands for itself. *)
Fixpoint GetSubstitution (matched before after template : jsstring)
    : jsstring :=
  match template with
  | [] => []
  | c :: t =>
      if c =? Ch.DOLLAR then
        match t with
        | d :: t' =>
            if d =? Ch.DOLLAR then
              Ch.DOLLAR :: GetSubstitution matched before after t'
            else if d =? Ch.AMP then
              matched ++ GetSubstitution matched before after t'
            else if d =? Ch.BACKTICK then
              before ++ GetSubstitution matched before after t'
            else if d =? Ch.QUOTE then
              after ++ GetSubstitution matched before after t'
            else c :: GetSubstitution matched before after t
        | [] => [c]
        end
      else c :: GetSubstitution matched before after t
  end.

Fixpoint starts_with (pat s : jsstring) : bool :=
  match pat, s with
  | [] , _ => true
  | p :: pat', c :: s' => (p =? c) && starts_with pat' s'
  | _ :: _, [] => false
  end.

(** The scan of [replaceAll]: [before] holds the code units already passed,
    most recent first, and [skip] counts the code units of a match still to
    pass. *)
Fixpoint replaceAll_from (pat replacement : jsstring) (skip : nat)
    (before s : jsstring) : jsstring :=
  match s with
  | [] => []
  | c :: s' =>
      match skip with
      | S k => replaceAll_from pat replacement k (c :: before) s'
      | O =>
          if starts_with pat s then
            GetSubstitution pat (reverse before) (drop (length pat) s)
                            replacement
              ++ replaceAll_from pat replacement (length pat - 1)
                                 (c :: before) s'
          else c :: replaceAll_from pat replacement 0 (c :: before) s'
      end
  end.

(** [s.replaceAll(pat, replacement)] for strings [pat] and [replacement].
    The search strings of the source are not empty; for an empty one the
    string is returned as it is. *)
Definition replaceAll (s pat replacement : jsstring) : jsstring :=
  match pat with
  | [] => s
  | _ => replaceAll_from pat replacement 0 [] s
  end.

(** ** Skills *)

Record Skill : Type := mkSkill {
  name : jsstring;
  fullPath : jsstring;
  toolName : jsstring;
  description : jsstring;
  allowedTools : option (list jsstring);
  metadata : option (list (jsstring * jsstring));
  license : option jsstring;
  content : jsstring;
  path : jsstring
}.

(** The text [execute] builds from the skill and the resource paths it
    has gathered. *)
Definition render (skill : Skill) (resourcePaths : list jsstring)
    : jsstring :=
  let prompt :=
    replaceAll
      (replaceAll
         (replaceAll SKILL_PROMPT (js "%{name}") (name skill))
         (js "%{fullPath}") (fullPath skill))
      (js "%{content}") (content skill) in
  if (0 <? length resourcePaths)%nat then
    prompt ++ [Ch.LF; Ch.LF]
      ++ replaceAll
           (replaceAll RESOURCES_PROMPT (js "%{name}") (name skill))
           (js "%{paths}") (join [Ch.LF] resourcePaths)
  else prompt.

Section Plugin.

(** The file system the plugin runs on. *)
Variable fs : FileSystem.

(** [gray-matter]: splits the text of a file into the parsed header and
    the body, or throws on a malformed header. *)
Variable matter : jsstring → Result (JsValue * jsstring).

(** [new Glob(pat).scan({ cwd, absolute: true })], drained into a list.
    It throws when [cwd] is not a directory. *)
Definition scan (pat : GlobPattern) (cwd : jsstring)
    : Result (list jsstring) :=
  let base := Path.resolve cwd in
  match lookup_dir fs base with
  | Some ch =>
      Ok ((λ segs, Path.absolute (base ++ segs)) <$> walk_entries pat ch)
  | None => Throw (js "ENOENT: no such file or directory")
  end.

(** [Bun.file(path).text()]. *)
Definition readText (path : jsstring) : Result jsstring :=
  match lookup_file fs (Path.resolve path) with
  | Some text => text
  | None => Throw (js "ENOENT: no such file or directory")
  end.

(** The [catch] of [parseSkill]: the error is logged and the file yields
    no skill. *)
Definition parse_failed (skillPath message : jsstring)
    : Console (option Skill) :=
  console_error
    [ CStr ([Ch.CROSS] ++ js " Error parsing skill " ++ skillPath ++ js ":");
      CStr message ] ;;;
  console_ret None.

(** The line logged for one issue of a [ZodError]. *)
Definition issue_line (err : ZodIssue) : jsstring :=
  js "   - " ++ join (js ".") (path_key_string <$> issue_path err)
    ++ js ": " ++ issue_message err.

(** [parseSkill] of the source. *)
Definition parseSkill (skillPath baseDir : jsstring)
    : Console (option Skill) :=
  match readText skillPath with
  | Throw message => parse_failed skillPath message
  | Ok text =>
  match matter text with
  | Throw message => parse_failed skillPath message
  | Ok (data, markdown) =>
  match SkillFrontmatterSchema_parse data with
  | PFail errors =>
      console_error
        [ CStr ([Ch.CROSS] ++ js " Invalid frontmatter in "
                  ++ skillPath ++ js ":") ] ;;;
      console_forEach (λ err, console_error [CStr (issue_line err)])
        errors ;;;
      console_ret None
  | POk frontmatter =>
      let skillDir := Path.basename (Path.dirname skillPath) in
      if bool_decide (fm_name frontmatter ≠ skillDir) then
        console_error
          [ CStr ([Ch.CROSS] ++ js " Name mismatch in "
                    ++ skillPath ++ js ":");
            CStr ([Ch.LF] ++ js "   Frontmatter name: " ++ [Ch.DQUOTE]
                    ++ fm_name frontmatter ++ [Ch.DQUOTE]);
            CStr ([Ch.LF] ++ js "   Directory name: " ++ [Ch.DQUOTE]
                    ++ skillDir ++ [Ch.DQUOTE]);
            CStr ([Ch.LF] ++ js "   Fix: Update the 'name' field in "
                    ++ js "SKILL.md to match the directory name") ] ;;;
        console_ret None
      else
        let toolName := generateToolName skillPath baseDir in
        console_ret (Some {|
          name := fm_name frontmatter;
          fullPath := Path.dirname skillPath;
          toolName := toolName;
          description := fm_description frontmatter;
          allowedTools := fm_allowed_tools frontmatter;
          metadata := fm_metadata frontmatter;
          license := fm_license frontmatter;
          content := trim markdown;
          path := skillPath
        |})
  end end end.

(** The body of the inner loop of [discoverSkills]: a parsed skill is
    pushed, a [null] is passed over. *)
Definition collect_match (basePath : jsstring) (skills : list Skill)
    (found : jsstring) : Console (list Skill) :=
  let* skill := parseSkill found basePath in
  console_ret match skill with
              | Some sk => skills ++ [sk]
              | None => skills
              end.

(** The body of the outer loop: a root that cannot be scanned is passed
    over without a message. *)
Definition collect_root (skills : list Skill) (basePath : jsstring)
    : Console (list Skill) :=
  match scan (GlobNamed (js "SKILL.md")) basePath with
  | Ok matches => console_fold (collect_match basePath) skills matches
  | Throw _ => console_ret skills
  end.

(** The body of the loop that detects duplicate tool names; the state is
    the set [toolNames] and the array [duplicates]. *)
Definition detect_step (st : gset (list N) * list jsstring) (skill : Skill)
    : gset (list N) * list jsstring :=
  let '(toolNames, duplicates) := st in
  (toolNames ∪ {[ toolName skill ]},
   if bool_decide (toolName skill ∈ toolNames)
   then duplicates ++ [toolName skill]
   else duplicates).

(** The array [duplicates] once the loop is over. *)
Definition detect_duplicates (skills : list Skill) : list jsstring :=
  (foldl detect_step (∅, []) skills).2.

(** [discoverSkills] of the source. *)
Definition discoverSkills (basePaths : list jsstring)
    : Console (list Skill) :=
  let* skills := console_fold collect_root [] basePaths in
  let duplicates := detect_duplicates skills in
  (if (0 <? length duplicates)%nat then
     console_warn [ CStr (js "!  Duplicate tool names detected:");
                    CArr duplicates ]
   else console_ret tt) ;;;
  console_ret skills.

(** ** Invocation *)

(** The loop of [execute] over the matches of [**/*] below the skill's
    directory: a match whose file name is [SKILL.md] is skipped. *)
Definition resourcePaths (skill : Skill) : Result (list jsstring) :=
  match scan GlobAnyFile (fullPath skill) with
  | Ok matches =>
      Ok (filter (λ found, Path.basename found ≠ js "SKILL.md") matches)
  | Throw message => Throw message
  end.

(** [execute] of the tool registered for [skill]: the call fails when
    the scan throws. *)
Definition execute (skill : Skill) : Result jsstring :=
  match resourcePaths skill with
  | Ok paths => Ok (render skill paths)
  | Throw message => Throw message
  end.

End Plugin.

(** ** What the specification says of tool names *)

(** A path segment that survives [path.resolve]: it is not empty, it is
    neither [.] nor [..], and it holds no slash. *)
Definition proper_segment (seg : jsstring) : Prop :=
  seg ≠ [] ∧ seg ≠ js "." ∧ seg ≠ js ".." ∧ Ch.SLASH ∉ seg.

(** [file] lies below [root]: [chain] is the chain of directories from the
    root down to the file and [fname] is the file's name. *)
Definition below (root file : jsstring) (chain : list jsstring)
    (fname : jsstring) : Prop :=
  Path.resolve file = Path.resolve root ++ chain ++ [fname].

(** The identifier as the specification words it: the segments of the
    directory chain other than the current-directory marker, each with its
    hyphens replaced, joined with underscores behind the prefix. *)
Definition spec_identifier (chain : list jsstring) : jsstring :=
  js "skills_"
    ++ join (js "_") (replace_hyphens <$> filter (λ c, c ≠ js ".") chain).

(** ** What the specification says of the schema *)

(** The pattern of names: one or more lowercase letters, digits and
    hyphens. *)
Definition matches_name_pattern (s : jsstring) : Prop :=
  s ≠ [] ∧
  Forall (λ c, 97 ≤ c ≤ 122 ∨ 48 ≤ c ≤ 57 ∨ c = Ch.HYPHEN) s.

(** [name] is not a string that matches the pattern. *)
Definition name_fails (header : JsValue) : Prop :=
  ¬ ∃ s, get_field (js "name") header = Some (JString s)
         ∧ matches_name_pattern s.

(** [description] is not a string of twenty code units or more. *)
Definition description_too_short (header : JsValue) : Prop :=
  ¬ ∃ s, get_field (js "description") header = Some (JString s)
         ∧ (20 ≤ length s)%nat.

(** A sequence of strings. *)
Definition string_sequence (v : JsValue) : Prop :=
  ∃ l : list jsstring, v = JArray (JString <$> l).

(** A flat mapping from strings to strings. *)
Definition flat_string_map (v : JsValue) : Prop :=
  ∃ m : list (jsstring * jsstring), v = JObject (prod_map id JString <$> m).

(** [license] is present and is not a string. *)
Definition license_misshapen (header : JsValue) : Prop :=
  ∃ v, get_field (js "license") header = Some v ∧ ¬ ∃ s, v = JString s.

(** [allowed-tools] is present and is not a sequence of strings. *)
Definition allowed_tools_misshapen (header : JsValue) : Prop :=
  ∃ v, get_field (js "allowed-tools") header = Some v ∧ ¬ string_sequence v.

(** [metadata] is present and is not a flat string map. *)
Definition metadata_misshapen (header : JsValue) : Prop :=
  ∃ v, get_field (js "metadata") header = Some v ∧ ¬ flat_string_map v.

(** Validation fails with a [ZodError]. *)
Definition schema_error (header : JsValue) : Prop :=
  ∃ issues, SkillFrontmatterSchema_parse header = PFail issues.

(** Whether a parse succeeded. *)
Definition okb {A} (p : Parsed A) : bool :=
  match p with
  | POk _ => true
  | PFail _ => false
  end.

(** A header with a valid name and description whose [license] is the
    number 42, as YAML reads [license: 42]. *)
Definition numeric_license_header : JsValue :=
  JObject [ (js "name", JString (js "demo"));
            (js "description",
             JString (js "A demo skill for testing purposes."));
            (js "license", JNumber 42) ].

(** ** What the specification says of parsing and discovery *)

(** [needle] occurs in [hay]. *)
Definition substring (needle hay : jsstring) : Prop :=
  ∃ pre post, hay = pre ++ needle ++ post.

(** A console call one of whose string arguments shows [s]. *)
Definition mentions (entry : LogEntry) (s : jsstring) : Prop :=
  ∃ arg, CStr arg ∈ log_args entry ∧ substring s arg.

(** [s] between double quotes. *)
Definition quoted (s : jsstring) : jsstring :=
  [Ch.DQUOTE] ++ s ++ [Ch.DQUOTE].

(** The metadata files matched under a root, in matching order; none when
    the root cannot be scanned. *)
Definition matches_under (fs : FileSystem) (root : jsstring)
    : list jsstring :=
  match scan fs (GlobNamed (js "SKILL.md")) root with
  | Ok matches => matches
  | Throw _ => []
  end.

(** The parse results that are not null: root by root in the given order,
    and within a root match by match. *)
Definition parse_results (fs : FileSystem)
    (matter : jsstring → Result (JsValue * jsstring))
    (roots : list jsstring) : list Skill :=
  roots ≫= λ root,
    omap (λ found, (parseSkill fs matter found root).1)
         (matches_under fs root).

(** How often [x] occurs in [l]. *)
Definition occurrences (x : jsstring) (l : list jsstring) : nat :=
  length (filter (λ y, y = x) l).

(** The identifiers of the collected skills, in order. *)
Definition discovered_ids (fs : FileSystem)
    (matter : jsstring → Result (JsValue * jsstring))
    (roots : list jsstring) : list jsstring :=
  toolName <$> (discoverSkills fs matter roots).1.

(** The array of duplicates [discoverSkills] builds. *)
Definition discovered_duplicates (fs : FileSystem)
    (matter : jsstring → Result (JsValue * jsstring))
    (roots : list jsstring) : list jsstring :=
  detect_duplicates (discoverSkills fs matter roots).1.

(** The diagnostic as a set: every identifier that occurs more than once
    among [ids] is listed once in [duplicates], and nothing else is. *)
Definition listed_once (ids duplicates : list jsstring) : Prop :=
  ∀ id, occurrences id duplicates
        = if bool_decide (2 ≤ occurrences id ids)%nat then 1%nat else 0%nat.

(** The warning [discoverSkills] logs for a non-empty array of
    duplicates. *)
Definition duplicates_warning (duplicates : list jsstring) : LogEntry :=
  mkLog LogWarn [ CStr (js "!  Duplicate tool names detected:");
                  CArr duplicates ].

(** ** What the specification says of resources *)

(** A file lies below the entries [es], at the end of the chain [segs] of
    names, whatever its depth. *)
Inductive file_under : list Entry → list jsstring → Prop :=
| file_here es n text :
    File n text ∈ es → file_under es [n]
| file_deeper es n ch segs :
    Dir n ch ∈ es → file_under ch segs → file_under es (n :: segs).

(** Every name in the tree below an entry. *)
Fixpoint names_below (e : Entry) : list jsstring :=
  match e with
  | File n _ => [n]
  | Dir n ch => n :: concat (map names_below ch)
  end.

(** The names of a real directory tree: none is empty, none is [.] or
    [..], and none holds a slash. *)
Definition proper_names (es : list Entry) : Prop :=
  Forall proper_segment (concat (map names_below es)).

(** A chain of names that [pat] reaches: the double star passes through
    directories whose names do not begin with a period, and the last
    component matches the file name. *)
Fixpoint chain_matches (pat : GlobPattern) (segs : list jsstring) : bool :=
  match segs with
  | [] => false
  | [n] => glob_file_matches pat n
  | n :: rest => negb (hidden n) && chain_matches pat rest
  end.

(** ** What the specification says of the payload *)

(** The first template, filled in. *)
Definition skill_block (name body : jsstring) : jsstring :=
  js "<skill name=" ++ [Ch.DQUOTE] ++ name ++ [Ch.DQUOTE] ++ js ">"
    ++ [Ch.LF; Ch.LF] ++ body ++ [Ch.LF; Ch.LF] ++ js "</skill>".

(** The second template, filled in: the paths one per line, each as often
    as it is listed. *)
Definition resources_block (name : jsstring) (paths : list jsstring)
    : jsstring :=
  js "<skill_resources>" ++ [Ch.LF]
    ++ js "IMPORTANT: The skill " ++ name
    ++ js " may reference certain resource files. Use their full paths:"
    ++ [Ch.LF; Ch.LF] ++ join [Ch.LF] paths ++ [Ch.LF]
    ++ js "</skill_resources>".

(** The payload of the specification: the first block, and the second one
    exactly when there are resources. *)
Definition spec_payload (skill : Skill) (paths : list jsstring) : jsstring :=
  skill_block (name skill) (content skill)
    ++ match paths with
       | [] => []
       | _ => [Ch.LF; Ch.LF] ++ resources_block (name skill) paths
       end.

(** Whether [needle] occurs in [hay]. *)
Fixpoint occurs_in (needle hay : jsstring) : bool :=
  starts_with needle hay
  || match hay with
     | [] => false
     | _ :: hay' => occurs_in needle hay'
     end.

(** ** Example worlds *)

(** A stand-in for [gray-matter] that knows the files of a table. *)
Definition matter_of_table (table : list (jsstring * (JsValue * jsstring)))
    (text : jsstring) : Result (JsValue * jsstring) :=
  match assoc text table with
  | Some parsed => Ok parsed
  | None => Throw (js "cannot parse the header")
  end.

Definition demo_text : jsstring :=
  js "---" ++ [Ch.LF] ++ js "name: demo" ++ [Ch.LF]
    ++ js "description: A demo skill for testing purposes." ++ [Ch.LF]
    ++ js "---" ++ [Ch.LF] ++ js "# Hello" ++ [Ch.LF].

Definition demo_header : JsValue :=
  JObject [ (js "name", JString (js "demo"));
            (js "description",
             JString (js "A demo skill for testing purposes.")) ].

(** A header that declares the name [foo]. *)
Definition foo_text : jsstring :=
  js "---" ++ [Ch.LF] ++ js "name: foo" ++ [Ch.LF]
    ++ js "description: A skill whose name is not its directory."
    ++ [Ch.LF] ++ js "---" ++ [Ch.LF] ++ js "Body" ++ [Ch.LF].

Definition foo_header : JsValue :=
  JObject [ (js "name", JString (js "foo"));
            (js "description",
             JString (js "A skill whose name is not its directory.")) ].

Definition demo_matter : jsstring → Result (JsValue * jsstring) :=
  matter_of_table
    [ (demo_text, (demo_header, js "# Hello" ++ [Ch.LF]));
      (foo_text, (foo_header, js "Body" ++ [Ch.LF])) ].

(** The bundle [demo] with one resource, a bundle [bar] whose header
    declares [foo], and the same bundle [demo] in two further roots. *)
Definition demo_bundle : Entry :=
  Dir (js "demo")
    [ File (js "SKILL.md") (Ok demo_text);
      File (js "notes.txt") (Ok (js "notes")) ].

Definition demo_fs : FileSystem :=
  [ Dir (js "r")
      [ Dir (js "skills")
          [ demo_bundle;
            Dir (js "bar") [ File (js "SKILL.md") (Ok foo_text) ] ] ];
    Dir (js "home") [ Dir (js "skills") [ demo_bundle ] ];
    Dir (js "etc") [ Dir (js "skills") [ demo_bundle ] ] ].

Definition demo_roots : list jsstring :=
  [ js "/r/skills"; js "/home/skills"; js "/missing/skills";
    js "/etc/skills" ].

(** The entries of a bundle with resources: a note, a hidden file, a
    hidden directory, and a subdirectory that holds a second [SKILL.md]. *)
Definition tool_entries : list Entry :=
  [ File (js "SKILL.md") (Ok demo_text);
    File (js "notes.txt") (Ok (js "notes"));
    File (js ".env") (Ok (js "KEY=1"));
    Dir (js ".git") [ File (js "config") (Ok (js "[core]")) ];
    Dir (js "docs")
      [ File (js "SKILL.md") (Ok (js "nested"));
        File (js "api.md") (Ok (js "api")) ] ].

Definition tool_fs : FileSystem :=
  [ Dir (js "b") [ Dir (js "tool") tool_entries ] ].

Definition tool_skill : Skill :=
  mkSkill (js "tool") (js "/b/tool") (js "skills_tool")
    (js "A demo skill for testing purposes.") None None None
    (js "# Hello") (js "/b/tool/SKILL.md").

(** A bundle whose body shows a shell command with the process id
    variable, two dollar signs. *)
Definition shell_skill : Skill :=
  mkSkill (js "shell") (js "/r/skills/shell") (js "skills_shell")
    (js "Shell recipes for everyday use.") None None None
    (js "Run: kill -9 $$") (js "/r/skills/shell/SKILL.md").

(** The header value a validated record stands for, field by field. *)
Definition string_value (s : jsstring) : JsValue := JString s.

Definition strings_value (l : list jsstring) : JsValue :=
  JArray (JString <$> l).

Definition map_value (m : list (jsstring * jsstring)) : JsValue :=
  JObject (prod_map id JString <$> m).

(** The header that holds the fields of a validated record and nothing
    else. *)
Definition header_of (fm : SkillFrontmatter) : JsValue :=
  JObject
    ([ (js "name", string_value (fm_name fm));
       (js "description", string_value (fm_description fm)) ]
       ++ option_list ((λ s, (js "license", string_value s))
                         <$> fm_license fm)
       ++ option_list ((λ l, (js "allowed-tools", strings_value l))
                         <$> fm_allowed_tools fm)
       ++ option_list ((λ m, (js "metadata", map_value m))
                         <$> fm_metadata fm)).

(** A bundle whose header is read but does not pass the schema: the
    license is a number. *)
Definition bad_text : jsstring :=
  js "---" ++ [Ch.LF] ++ js "name: demo" ++ [Ch.LF]
    ++ js "description: A demo skill for testing purposes." ++ [Ch.LF]
    ++ js "license: 42" ++ [Ch.LF] ++ js "---" ++ [Ch.LF].

Definition bad_fs : FileSystem :=
  [ Dir (js "r")
      [ Dir (js "skills")
          [ Dir (js "demo") [ File (js "SKILL.md") (Ok bad_text) ] ] ] ].

Definition bad_matter : jsstring → Result (JsValue * jsstring) :=
  matter_of_table [ (bad_text, (numeric_license_header, [])) ].

(** ** The plugin *)

(** What [tool] is given for a skill: the description and the handler,
    which keeps the skill it was made for. *)
Record Tool : Type := mkTool {
  tool_description : jsstring;
  tool_captured : Skill
}.

(** The handler of a tool, called on the file system of that moment. *)
Definition tool_execute (fs : FileSystem) (t : Tool) : Result jsstring :=
  execute fs (tool_captured t).

(** [xdgConfigHome ? join(xdgConfigHome, "opencode/skills")
    : join(os.homedir(), ".config/opencode/skills")]: an environment
    variable that is not set or is empty is falsy. *)
Definition configSkillsPath (homedir : jsstring)
    (XDG_CONFIG_HOME : option jsstring) : jsstring :=
  match XDG_CONFIG_HOME with
  | Some (c :: xdg) => Path.join [c :: xdg; js "opencode/skills"]
  | _ => Path.join [homedir; js ".config/opencode/skills"]
  end.

(** The roots [SkillsPlugin] hands to [discoverSkills], in order. *)
Definition plugin_roots (directory homedir : jsstring)
    (XDG_CONFIG_HOME : option jsstring) : list jsstring :=
  [ Path.join [directory; js ".opencode/skills"];
    Path.join [homedir; js ".opencode/skills"];
    configSkillsPath homedir XDG_CONFIG_HOME ].

(** The loop [tools[skill.toolName] = tool({...})]. *)
Definition register (tools : gmap (list N) Tool) (skill : Skill)
    : gmap (list N) Tool :=
  <[ toolName skill := mkTool (description skill) skill ]> tools.

(** [SkillsPlugin] of the source: [directory] is [ctx.directory]; the
    result is the record of tools. *)
Definition SkillsPlugin (fs : FileSystem)
    (matter : jsstring → Result (JsValue * jsstring))
    (directory homedir : jsstring) (XDG_CONFIG_HOME : option jsstring)
    : Console (gmap (list N) Tool) :=
  let* skills :=
    discoverSkills fs matter (plugin_roots directory homedir XDG_CONFIG_HOME) in
  console_ret (foldl register ∅ skills).

(** ** Further notions for the properties *)

(** In every directory of the tree the names are distinct. *)
Inductive unique_names : list Entry → Prop :=
| unique_names_intro es :
    NoDup (entry_name <$> es) →
    (∀ n ch, Dir n ch ∈ es → unique_names ch) →
    unique_names es.

(** The second template with [text] in the place of the paths. *)
Definition resources_text (name text : jsstring) : jsstring :=
  js "<skill_resources>" ++ [Ch.LF]
    ++ js "IMPORTANT: The skill " ++ name
    ++ js " may reference certain resource files. Use their full paths:"
    ++ [Ch.LF; Ch.LF] ++ text ++ [Ch.LF] ++ js "</skill_resources>".

(** The text before and the text after the body in the first template
    once the name is filled in. *)
Definition before_body (name : jsstring) : jsstring :=
  js "<skill name=" ++ [Ch.DQUOTE] ++ name ++ [Ch.DQUOTE] ++ js ">"
    ++ [Ch.LF; Ch.LF].

Definition after_body : jsstring := [Ch.LF; Ch.LF] ++ js "</skill>".

(** The text before and the text after the paths in the second
    template once the name is filled in. *)
Definition before_paths (name : jsstring) : jsstring :=
  js "<skill_resources>" ++ [Ch.LF]
    ++ js "IMPORTANT: The skill " ++ name
    ++ js " may reference certain resource files. Use their full paths:"
    ++ [Ch.LF; Ch.LF].

Definition after_paths : jsstring := [Ch.LF] ++ js "</skill_resources>".

(** A failed parse reports at least one issue. *)
Definition reports {A} (p : Parsed A) : Prop :=
  match p with
  | PFail [] => False
  | _ => True
  end.

(** The header fields the schema knows. *)
Definition known_keys : list jsstring :=
  [ js "name"; js "description"; js "license"; js "allowed-tools";
    js "metadata" ].

(** Membership of a code unit in a text that is written out. *)
Ltac concrete_notin :=
  refine (bool_decide_unpack _ _); vm_compute; exact I.

(** Distinct names in a tree that is written out. *)
Ltac concrete_unique :=
  constructor;
  [ refine (bool_decide_unpack _ _); vm_compute; exact I
  | let Hin := fresh "Hin" in
    let Heq := fresh "Heq" in
    intros ? ? Hin;
    repeat (apply elem_of_cons in Hin as [Heq|Hin];
            [ first [ discriminate Heq
                    | injection Heq as -> ->; concrete_unique ] |]);
    by apply elem_of_nil in Hin ].

(** Proper names in a tree that is written out. *)
Ltac concrete_proper :=
  unfold proper_names; vm_compute;
  repeat constructor; try discriminate;
  let Hin := fresh "Hin" in
  intros Hin;
  repeat (apply elem_of_cons in Hin as [Hin|Hin]; [discriminate|]);
  by apply elem_of_nil in Hin.

(** * Properties *)

(** ** Strings *)

Section StringFacts.

Implicit Types (s w : jsstring) (l : list jsstring) (c sep : N).

Lemma split_not_nil sep s : split sep s ≠ [].
Proof.
  destruct s as [|c s]; simpl; [done|].
  destruct (c =? sep); [done|]. by destruct (split sep s).
Qed.

Lemma split_free sep s : sep ∉ s → split sep s = [s].
Proof.
  induction s as [|c s IH]; intros Hs; simpl; [done|].
  apply not_elem_of_cons in Hs as [Hc Hs].
  destruct (N.eqb_spec c sep) as [->|_]; [done|].
  by rewrite IH.
Qed.

Lemma split_app_sep sep w s :
  sep ∉ w → split sep (w ++ sep :: s) = w :: split sep s.
Proof.
  induction w as [|c w IH]; intros Hw; simpl.
  - by rewrite N.eqb_refl.
  - apply not_elem_of_cons in Hw as [Hc Hw].
    destruct (N.eqb_spec c sep) as [->|_]; [done|].
    by rewrite IH.
Qed.

Lemma join_cons (d : jsstring) w l :
  l ≠ [] → join d (w :: l) = w ++ d ++ join d l.
Proof. by destruct l. Qed.

Lemma join_snoc (d : jsstring) l w :
  l ≠ [] → join d (l ++ [w]) = join d l ++ d ++ w.
Proof.
  induction l as [|x l IH]; intros Hl; [done|].
  destruct l as [|y l]; [done|].
  change ((x :: y :: l) ++ [w]) with (x :: ((y :: l) ++ [w])).
  rewrite join_cons by done. rewrite IH by done.
  rewrite (join_cons _ x (y :: l)) by done.
  by rewrite <- !(assoc_L (++)).
Qed.

Lemma split_join sep l :
  l ≠ [] → Forall (λ w, sep ∉ w) l → split sep (join [sep] l) = l.
Proof.
  induction l as [|w l IH]; intros Hl Hfree; [done|].
  apply Forall_cons in Hfree as [Hw Hfree].
  destruct l as [|y l].
  - simpl. by apply split_free.
  - rewrite join_cons by done.
    change ([sep] ++ join [sep] (y :: l)) with (sep :: join [sep] (y :: l)).
    rewrite split_app_sep by done. by rewrite IH.
Qed.

Lemma split_segments_free sep s : Forall (λ w, sep ∉ w) (split sep s).
Proof.
  induction s as [|c s IH]; simpl.
  - repeat constructor. by apply not_elem_of_nil.
  - destruct (N.eqb_spec c sep) as [->|Hne].
    + constructor; [apply not_elem_of_nil | done].
    + destruct (split sep s) as [|w ws]; [|apply Forall_cons in IH as [Hw Hws]].
      * repeat constructor.
        apply not_elem_of_cons; split; [done | apply not_elem_of_nil].
      * constructor; [|done]. by apply not_elem_of_cons.
Qed.

Lemma replace_hyphens_join l :
  replace_hyphens (join (js "_") l)
  = join (js "_") (replace_hyphens <$> l).
Proof.
  induction l as [|w l IH]; [done|].
  destruct l as [|y l]; [done|].
  rewrite join_cons by done.
  change (replace_hyphens <$> w :: y :: l)
    with (replace_hyphens w :: (replace_hyphens <$> y :: l)).
  rewrite (join_cons _ (replace_hyphens w)) by (by rewrite fmap_cons).
  rewrite <- IH. unfold replace_hyphens. by rewrite !fmap_app.
Qed.

Lemma drop_while_all (p : N → bool) s1 s2 :
  Forall (λ c, p c = true) s1 →
  drop_while p (s1 ++ s2) = drop_while p s2.
Proof.
  induction 1 as [|c s1 Hc _ IH]; [done|]. simpl. by rewrite Hc.
Qed.

Lemma drop_while_stop (p : N → bool) c s :
  p c = false → drop_while p (c :: s) = c :: s.
Proof. intros Hc. simpl. by rewrite Hc. Qed.

Lemma take_while_all_stop (p : N → bool) s1 c s2 :
  Forall (λ c, p c = true) s1 → p c = false →
  take_while p (s1 ++ c :: s2) = s1.
Proof.
  induction 1 as [|d s1 Hd _ IH]; intros Hc; simpl.
  - by rewrite Hc.
  - rewrite Hd. by rewrite IH.
Qed.

Lemma take_while_all (p : N → bool) s :
  Forall (λ c, p c = true) s → take_while p s = s.
Proof.
  induction 1 as [|d s Hd _ IH]; simpl; [done|]. by rewrite Hd, IH.
Qed.

End StringFacts.

(** ** Paths *)

Section PathFacts.

Implicit Types (s seg : jsstring) (l acc chain : list jsstring) (c : N).

Lemma not_slash_true c : Path.not_slash c = true ↔ c ≠ Ch.SLASH.
Proof.
  unfold Path.not_slash. destruct (N.eqb_spec c Ch.SLASH); naive_solver.
Qed.

Lemma is_slash_false c : Path.is_slash c = false ↔ c ≠ Ch.SLASH.
Proof.
  unfold Path.is_slash. destruct (N.eqb_spec c Ch.SLASH); naive_solver.
Qed.

Lemma slash_free_Forall s :
  Ch.SLASH ∉ s → Forall (λ c, Path.not_slash c = true) s.
Proof.
  intros Hs. apply Forall_forall. intros c Hc.
  apply not_slash_true. by intros ->.
Qed.

Lemma normalize_step_proper acc seg :
  Forall proper_segment acc → Ch.SLASH ∉ seg →
  Forall proper_segment (Path.normalize_step acc seg).
Proof.
  intros Hacc Hseg. unfold Path.normalize_step.
  repeat case_bool_decide; try done.
  - destruct acc; [done|]. by apply Forall_cons in Hacc as [_ ?].
  - by constructor.
Qed.

Lemma foldl_normalize_proper l acc :
  Forall proper_segment acc → Forall (λ w, Ch.SLASH ∉ w) l →
  Forall proper_segment (foldl Path.normalize_step acc l).
Proof.
  revert acc. induction l as [|w l IH]; intros acc Hacc Hl; [done|].
  apply Forall_cons in Hl as [Hw Hl]. simpl.
  apply IH; [|done]. by apply normalize_step_proper.
Qed.

(** Every segment of a resolved path is proper. *)
Lemma resolve_proper s : Forall proper_segment (Path.resolve s).
Proof.
  unfold Path.resolve. apply Forall_reverse.
  apply foldl_normalize_proper; [done|]. apply split_segments_free.
Qed.

(** The working directory plays no part in resolving an absolute path. *)
Lemma resolve_from_absolute cwd s :
  head s = Some Ch.SLASH → Path.resolve_from cwd s = Path.resolve s.
Proof.
  unfold Path.resolve_from, Path.resolve. destruct s as [|c s]; [done|].
  intros [= ->]. by rewrite N.eqb_refl.
Qed.

(** [Path.resolve] is [Path.resolve_from] in the root directory. *)
Lemma resolve_from_root s : Path.resolve_from (js "/") s = Path.resolve s.
Proof.
  unfold Path.resolve_from, Path.resolve. destruct s as [|c s]; [done|].
  destruct (c =? Ch.SLASH) eqn:Hc; [done|].
  change (js "/" ++ js "/" ++ c :: s) with (Ch.SLASH :: Ch.SLASH :: c :: s).
  change (split Ch.SLASH (Ch.SLASH :: Ch.SLASH :: c :: s))
    with ([] :: [] :: split Ch.SLASH (c :: s)).
  done.
Qed.

Lemma relative_from_absolute cwd from to :
  head from = Some Ch.SLASH → head to = Some Ch.SLASH →
  Path.relative_from cwd from to = Path.relative from to.
Proof.
  intros Hfrom Hto. unfold Path.relative_from, Path.relative.
  by rewrite !resolve_from_absolute.
Qed.

Lemma relative_from_root from to :
  Path.relative_from (js "/") from to = Path.relative from to.
Proof.
  unfold Path.relative_from, Path.relative. by rewrite !resolve_from_root.
Qed.

Lemma strip_common_prefix l rest :
  Path.strip_common l (l ++ rest) = ([], rest).
Proof.
  induction l as [|w l IH]; simpl.
  - by destruct rest.
  - by rewrite bool_decide_eq_true_2.
Qed.

Lemma relative_below root file chain fname :
  below root file chain fname →
  Path.relative root file = join (js "/") (chain ++ [fname]).
Proof.
  unfold below, Path.relative. intros ->.
  by rewrite strip_common_prefix.
Qed.

(** [dirname] of a lone file name is the current directory. *)
Lemma dirname_file seg :
  seg ≠ [] → Ch.SLASH ∉ seg → Path.dirname seg = js ".".
Proof.
  intros Hne Hfree. destruct seg as [|c rest]; [done|].
  apply not_elem_of_cons in Hfree as [Hc Hrest].
  unfold Path.dirname.
  assert (drop_while Path.not_slash
            (drop_while Path.is_slash (reverse rest)) = []) as ->.
  { assert (Forall (λ c, Path.not_slash c = true) (reverse rest)) as Hall
      by by apply Forall_reverse, slash_free_Forall.
    destruct (reverse rest) as [|d r] eqn:Hr; [done|].
    rewrite drop_while_stop.
    - rewrite <- (app_nil_r (d :: r)). by rewrite drop_while_all.
    - apply Forall_cons in Hall as [Hd _].
      apply is_slash_false. by apply not_slash_true. }
  destruct (N.eqb_spec c Ch.SLASH); [congruence | done].
Qed.

(** [dirname] cuts a relative path at its last slash. *)
Lemma dirname_cut c pre seg :
  c ≠ Ch.SLASH → seg ≠ [] → Ch.SLASH ∉ seg →
  Path.dirname ((c :: pre) ++ Ch.SLASH :: seg) = c :: pre.
Proof.
  intros Hc Hne Hfree.
  change ((c :: pre) ++ Ch.SLASH :: seg) with (c :: (pre ++ Ch.SLASH :: seg)).
  unfold Path.dirname. cbv zeta.
  rewrite reverse_app, reverse_cons, <- (assoc_L (++)).
  change ([Ch.SLASH] ++ reverse pre) with (Ch.SLASH :: reverse pre).
  assert (Forall (λ c, Path.not_slash c = true) (reverse seg)) as Hall
    by by apply Forall_reverse, slash_free_Forall.
  destruct (reverse seg) as [|d r] eqn:Hr.
  { apply (f_equal reverse) in Hr. rewrite reverse_involutive in Hr.
    by subst. }
  change ((d :: r) ++ Ch.SLASH :: reverse pre)
    with (d :: (r ++ Ch.SLASH :: reverse pre)).
  rewrite drop_while_stop.
  2:{ apply Forall_cons in Hall as [Hd _].
      apply is_slash_false. by apply not_slash_true. }
  change (d :: (r ++ Ch.SLASH :: reverse pre))
    with ((d :: r) ++ Ch.SLASH :: reverse pre).
  rewrite drop_while_all by done.
  rewrite drop_while_stop by done.
  destruct (N.eqb_spec c Ch.SLASH); [congruence|].
  simpl. by rewrite reverse_involutive.
Qed.

Lemma join_proper_head chain :
  chain ≠ [] → Forall proper_segment chain →
  ∃ c pre, join (js "/") chain = c :: pre ∧ c ≠ Ch.SLASH.
Proof.
  intros Hne Hall. destruct chain as [|w chain]; [done|].
  apply Forall_cons in Hall as [(Hw & _ & _ & Hfree) _].
  destruct w as [|c w]; [done|].
  apply not_elem_of_cons in Hfree as [Hc _].
  destruct chain as [|y chain].
  - by exists c, w.
  - rewrite join_cons by done. by eexists c, _.
Qed.

Lemma dirname_join chain fname :
  Forall proper_segment chain → proper_segment fname →
  Path.dirname (join (js "/") (chain ++ [fname]))
  = match chain with [] => js "." | _ => join (js "/") chain end.
Proof.
  intros Hall (Hne & _ & _ & Hfree).
  destruct chain as [|w chain].
  - by apply dirname_file.
  - rewrite join_snoc by done.
    destruct (join_proper_head (w :: chain)) as (c & pre & -> & Hc);
      [done..|].
    by apply dirname_cut.
Qed.

Lemma proper_chain_slash_free chain :
  Forall proper_segment chain → Forall (λ w, Ch.SLASH ∉ w) chain.
Proof. intros H. eapply Forall_impl; [done|]. by intros w (_ & _ & _ & ?). Qed.

Lemma filter_proper chain :
  Forall proper_segment chain → filter (λ w, w ≠ js ".") chain = chain.
Proof.
  induction 1 as [|w chain (_ & Hw & _) _ IH]; [done|].
  rewrite filter_cons_True by done. by rewrite IH.
Qed.

Lemma below_proper root file chain fname :
  below root file chain fname →
  Forall proper_segment chain ∧ proper_segment fname.
Proof.
  intros Hb. pose proof (resolve_proper file) as Hall.
  rewrite Hb in Hall. apply Forall_app in Hall as [_ Hall].
  apply Forall_app in Hall as [Hchain Hf].
  split; [done|]. by inversion Hf.
Qed.

(** The components [generateToolName] recovers are the directory chain. *)
Lemma components_below root file chain fname :
  below root file chain fname →
  filter (λ w, w ≠ js ".")
    (split Ch.SLASH (Path.dirname (Path.relative root file)))
  = chain.
Proof.
  intros Hb. destruct (below_proper _ _ _ _ Hb) as [Hchain Hf].
  rewrite (relative_below _ _ _ _ Hb), dirname_join by done.
  destruct chain as [|w chain]; [done|].
  change (js "/") with [Ch.SLASH].
  rewrite split_join; [|done|by apply proper_chain_slash_free].
  by apply filter_proper.
Qed.

Lemma generateToolName_below root file chain fname :
  below root file chain fname →
  generateToolName file root
  = js "skills_" ++ replace_hyphens (join (js "_") chain).
Proof.
  intros Hb. unfold generateToolName.
  by rewrite (components_below _ _ _ _ Hb).
Qed.

End PathFacts.

(** ** Tool names *)

Lemma spec_identifier_proper (chain : list jsstring) :
  Forall proper_segment chain →
  spec_identifier chain
  = js "skills_" ++ replace_hyphens (join (js "_") chain).
Proof.
  intros Hall. unfold spec_identifier.
  by rewrite filter_proper, replace_hyphens_join.
Qed.

(** C1. For a metadata file below a root, [generateToolName] yields the
    identifier the specification describes: the directory chain between the
    root and the file, without current-directory markers, every hyphen
    replaced by an underscore, joined with underscores behind the prefix
    [skills_]. The same two paths always yield the same identifier, and the
    example of the specification holds. *)
Theorem C1_generateToolName_spec :
  (∀ root file chain fname,
     below root file chain fname →
     generateToolName file root = spec_identifier chain)
  ∧ (∀ root file root' file',
       root = root' → file = file' →
       generateToolName file root = generateToolName file' root')
  ∧ generateToolName (js "/p/.tool/skills/document-skills/docx/META.md")
                     (js "/p/.tool/skills")
    = js "skills_document_skills_docx".
Proof.
  split; [|split].
  - intros root file chain fname Hb.
    destruct (below_proper _ _ _ _ Hb) as [Hchain _].
    rewrite spec_identifier_proper by done.
    by apply (generateToolName_below _ _ _ fname).
  - by intros root file root' file' -> ->.
  - vm_compute. reflexivity.
Qed.

Lemma C1_generateToolName_spec_witness :
  generateToolName (js "/w/.opencode/skills/tools/brand-guidelines/SKILL.md")
                   (js "/w/.opencode/skills/")
  = spec_identifier [js "tools"; js "brand-guidelines"].
Proof.
  apply (proj1 C1_generateToolName_spec _ _ _ (js "SKILL.md")).
  vm_compute. reflexivity.
Defined.

(** C10. A metadata file that lies directly in its root has the current
    directory as its directory chain, the marker is discarded, and the
    identifier is the bare prefix; two such files, in whatever roots, share
    that identifier. *)
Theorem C10_top_level_identifier
    (root1 file1 fname1 root2 file2 fname2 : jsstring) :
  below root1 file1 [] fname1 →
  below root2 file2 [] fname2 →
  Path.dirname (Path.relative root1 file1) = js "."
  ∧ generateToolName file1 root1 = js "skills_"
  ∧ generateToolName file2 root2 = generateToolName file1 root1.
Proof.
  intros Hb1 Hb2. split; [|split].
  - destruct (below_proper _ _ _ _ Hb1) as [Hchain Hf].
    by rewrite (relative_below _ _ _ _ Hb1), dirname_join.
  - by rewrite (generateToolName_below _ _ _ _ Hb1).
  - rewrite (generateToolName_below _ _ _ _ Hb1).
    by rewrite (generateToolName_below _ _ _ _ Hb2).
Qed.

Lemma C10_top_level_identifier_witness :
  Path.dirname (Path.relative (js "/w/.opencode/skills")
                              (js "/w/.opencode/skills/SKILL.md")) = js "."
  ∧ generateToolName (js "/w/.opencode/skills/SKILL.md")
                     (js "/w/.opencode/skills") = js "skills_"
  ∧ generateToolName (js "/home/u/.opencode/skills/SKILL.md")
                     (js "/home/u/.opencode/skills")
    = generateToolName (js "/w/.opencode/skills/SKILL.md")
                       (js "/w/.opencode/skills").
Proof.
  apply (C10_top_level_identifier _ _ (js "SKILL.md") _ _ (js "SKILL.md"));
    vm_compute; reflexivity.
Defined.

(** C8, as the specification states it, fails: the chains [pdf-tools] and
    [pdf/tools] stay different when their hyphens are replaced by
    underscores, and yet they receive the same identifier. *)
Lemma C8_counterexample :
  below (js "/r/skills") (js "/r/skills/pdf-tools/SKILL.md")
        [js "pdf-tools"] (js "SKILL.md")
  ∧ below (js "/r/skills") (js "/r/skills/pdf/tools/SKILL.md")
          [js "pdf"; js "tools"] (js "SKILL.md")
  ∧ replace_hyphens <$> [js "pdf-tools"]
    ≠ replace_hyphens <$> [js "pdf"; js "tools"]
  ∧ generateToolName (js "/r/skills/pdf-tools/SKILL.md") (js "/r/skills")
    = generateToolName (js "/r/skills/pdf/tools/SKILL.md") (js "/r/skills").
Proof.
  split; [|split; [|split]]; try (vm_compute; reflexivity).
  vm_compute. discriminate.
Qed.

(** C8, amended. Under a fixed root, two directory chains receive the same
    identifier exactly when they become equal once each is joined with
    underscores and every hyphen is replaced by an underscore: hyphens,
    underscores and the boundaries between segments all collapse, and chains
    that stay different under that collapsing have different identifiers. *)
Theorem C8_identifier_collisions
    (root file1 file2 : jsstring) (chain1 chain2 : list jsstring)
    (fname1 fname2 : jsstring) :
  below root file1 chain1 fname1 →
  below root file2 chain2 fname2 →
  generateToolName file1 root = generateToolName file2 root
  ↔ replace_hyphens (join (js "_") chain1)
    = replace_hyphens (join (js "_") chain2).
Proof.
  intros Hb1 Hb2.
  rewrite (generateToolName_below _ _ _ _ Hb1).
  rewrite (generateToolName_below _ _ _ _ Hb2).
  split; [apply (inj (app _)) | by intros ->].
Qed.

Lemma C8_identifier_collisions_witness :
  generateToolName (js "/r/skills/my-skill/SKILL.md") (js "/r/skills")
  = generateToolName (js "/r/skills/my_skill/SKILL.md") (js "/r/skills")
  ↔ replace_hyphens (join (js "_") [js "my-skill"])
    = replace_hyphens (join (js "_") [js "my_skill"]).
Proof.
  apply (C8_identifier_collisions _ _ _ _ _ (js "SKILL.md") (js "SKILL.md"));
    vm_compute; reflexivity.
Defined.

(** The aliasing the specification names: both directories map to
    [skills_my_skill]. *)
Example my_skill_aliases :
  generateToolName (js "/r/skills/my-skill/SKILL.md") (js "/r/skills")
  = js "skills_my_skill"
  ∧ generateToolName (js "/r/skills/my_skill/SKILL.md") (js "/r/skills")
    = js "skills_my_skill".
Proof. split; vm_compute; reflexivity. Qed.

(** ** The schema *)

Section SchemaFacts.

Lemma okb_ap {A B} (pf : Parsed (A → B)) (pa : Parsed A) :
  okb (parsed_ap pf pa) = okb pf && okb pa.
Proof. by destruct pf, pa. Qed.

Lemma okb_false {A} (p : Parsed A) :
  okb p = false ↔ ∃ issues, p = PFail issues.
Proof. destruct p; naive_solver. Qed.

Lemma okb_true {A} (p : Parsed A) : okb p = true ↔ ∃ a, p = POk a.
Proof. destruct p; naive_solver. Qed.

Lemma string_POk checks path v s :
  Zod.string checks path v = POk s ↔
  v = Some (JString s) ∧ Forall (λ c : Zod.Check, c.1 s = true) checks.
Proof.
  unfold Zod.string. destruct v as [[]|]; try naive_solver.
  match goal with |- context [omap ?f checks] => set (issue := f) end.
  assert (omap issue checks = []
          ↔ Forall (λ c : Zod.Check, c.1 s0 = true) checks) as Hall.
  { induction checks as [|c checks IH]; simpl; [naive_solver|].
    unfold issue at 1. destruct (c.1 s0) eqn:Hc.
    - rewrite IH, Forall_cons. naive_solver.
    - rewrite Forall_cons. split; [done|]. intros [? _]. congruence. }
  destruct (omap issue checks) eqn:Hissues.
  - split; [intros [= ->]|intros [[= ->] _]]; naive_solver.
  - split; [done|]. intros [[= ->] Hforall].
    by apply Hall in Hforall.
Qed.

Lemma string_okb checks path v :
  okb (Zod.string checks path v) = true ↔
  ∃ s, v = Some (JString s)
       ∧ Forall (λ c : Zod.Check, c.1 s = true) checks.
Proof.
  rewrite okb_true. split.
  - intros [s Hs]. exists s. by apply string_POk in Hs.
  - intros [s Hs]. exists s. by apply string_POk.
Qed.

Lemma optional_okb {A}
    (schema : list PathKey → option JsValue → Parsed A) path v :
  okb (Zod.optional schema path v) = true ↔
  v = None ∨ okb (schema path v) = true.
Proof.
  unfold Zod.optional. destruct v; [|naive_solver].
  rewrite okb_ap. cbn [okb andb]. naive_solver.
Qed.

Lemma items_okb path i l :
  okb (Zod.items (Zod.string []) path i l) = true ↔
  ∃ l' : list jsstring, l = JString <$> l'.
Proof.
  revert i. induction l as [|v l IH]; intros i; cbn [Zod.items].
  - split; [by exists []|done].
  - rewrite !okb_ap. cbn [okb andb].
    rewrite andb_true_iff, IH, string_okb. split.
    + intros [(s & [= ->] & _) [l' ->]]. by exists (s :: l').
    + intros [[|s l'] Hl]; [done|]. injection Hl as -> ->.
      split; [|by eexists]. exists s. by split.
Qed.

Lemma entries_okb path fields :
  okb (Zod.entries (Zod.string []) path fields) = true ↔
  ∃ m : list (jsstring * jsstring), fields = prod_map id JString <$> m.
Proof.
  induction fields as [|[k v] fields IH]; cbn [Zod.entries].
  - split; [by exists []|done].
  - rewrite !okb_ap. cbn [okb andb].
    rewrite andb_true_iff, IH, string_okb. split.
    + intros [(s & [= ->] & _) [m ->]]. by exists ((k, s) :: m).
    + intros [[|[k' s] m] Hm]; [done|]. injection Hm as -> -> ->.
      split; [|by eexists]. exists s. by split.
Qed.

Lemma array_okb path v :
  okb (Zod.array (Zod.string []) path (Some v)) = true
  ↔ string_sequence v.
Proof.
  unfold string_sequence, Zod.array.
  destruct v; try (split; [done|by intros [? ?]]).
  rewrite items_okb. naive_solver.
Qed.

Lemma record_okb path v :
  okb (Zod.record (Zod.string []) path (Some v)) = true
  ↔ flat_string_map v.
Proof.
  unfold flat_string_map, Zod.record.
  destruct v; try (split; [done|by intros [? ?]]).
  rewrite entries_okb. naive_solver.
Qed.

Lemma name_regex_test_spec s :
  name_regex_test s = true ↔ matches_name_pattern s.
Proof.
  unfold matches_name_pattern, name_regex_test.
  assert (forallb (λ c, is_lower c || is_digit c || (c =? Ch.HYPHEN)) s
          = true
          ↔ Forall (λ c, 97 ≤ c ≤ 122 ∨ 48 ≤ c ≤ 57 ∨ c = Ch.HYPHEN) s)
    as Hall.
  { rewrite forallb_forall, Forall_forall.
    apply forall_proper; intros c.
    rewrite <- list_elem_of_In.
    unfold is_lower, is_digit.
    rewrite !orb_true_iff, !andb_true_iff, !N.leb_le, N.eqb_eq.
    naive_solver. }
  destruct s; [naive_solver|]. rewrite Hall. naive_solver.
Qed.

End SchemaFacts.

Section SchemaTheorems.

Implicit Types (header v : JsValue).

Lemma name_checks_spec (s : jsstring) :
  Forall (λ c : Zod.Check, c.1 s = true) name_checks
  ↔ matches_name_pattern s.
Proof.
  unfold name_checks. rewrite !Forall_cons, Forall_nil. simpl.
  rewrite name_regex_test_spec. split; [naive_solver|].
  intros Hs. split; [done|]. split; [|done].
  destruct Hs as [Hne _]. by destruct s.
Qed.

Lemma description_checks_spec (s : jsstring) :
  Forall (λ c : Zod.Check, c.1 s = true) description_checks
  ↔ (20 ≤ length s)%nat.
Proof.
  unfold description_checks. rewrite Forall_cons, Forall_nil. simpl.
  rewrite negb_true_iff, Nat.ltb_ge. naive_solver.
Qed.

Lemma name_fails_okb header :
  name_fails header ↔
  okb (Zod.string name_checks [Key (js "name")]
         (get_field (js "name") header)) = false.
Proof.
  rewrite <- not_true_iff_false, string_okb. unfold name_fails.
  apply not_iff_compat. apply exist_proper; intros s.
  by rewrite name_checks_spec.
Qed.

Lemma description_too_short_okb header :
  description_too_short header ↔
  okb (Zod.string description_checks [Key (js "description")]
         (get_field (js "description") header)) = false.
Proof.
  rewrite <- not_true_iff_false, string_okb. unfold description_too_short.
  apply not_iff_compat. apply exist_proper; intros s.
  by rewrite description_checks_spec.
Qed.

Lemma license_misshapen_okb header :
  license_misshapen header ↔
  okb (Zod.optional (Zod.string []) [Key (js "license")]
         (get_field (js "license") header)) = false.
Proof.
  rewrite <- not_true_iff_false, optional_okb, string_okb.
  unfold license_misshapen.
  destruct (get_field (js "license") header) as [v|].
  - split.
    + intros (v' & [= <-] & Hv) [|(s & [= ->] & _)]; [done|].
      apply Hv. by exists s.
    + intros Hv. exists v. split; [done|]. intros [s ->].
      apply Hv. right. exists s. by split.
  - split; [by intros (? & ? & _)|]. intros H. destruct H. by left.
Qed.

Lemma allowed_tools_misshapen_okb header :
  allowed_tools_misshapen header ↔
  okb (Zod.optional (Zod.array (Zod.string [])) [Key (js "allowed-tools")]
         (get_field (js "allowed-tools") header)) = false.
Proof.
  rewrite <- not_true_iff_false, optional_okb.
  unfold allowed_tools_misshapen.
  destruct (get_field (js "allowed-tools") header) as [v|].
  - rewrite array_okb. split.
    + intros (v' & [= <-] & Hv) [|]; done.
    + intros Hv. exists v. split; [done|]. intros Hseq.
      apply Hv. by right.
  - split; [by intros (? & ? & _)|]. intros H. destruct H. by left.
Qed.

Lemma metadata_misshapen_okb header :
  metadata_misshapen header ↔
  okb (Zod.optional (Zod.record (Zod.string [])) [Key (js "metadata")]
         (get_field (js "metadata") header)) = false.
Proof.
  rewrite <- not_true_iff_false, optional_okb.
  unfold metadata_misshapen.
  destruct (get_field (js "metadata") header) as [v|].
  - rewrite record_okb. split.
    + intros (v' & [= <-] & Hv) [|]; done.
    + intros Hv. exists v. split; [done|]. intros Hmap.
      apply Hv. by right.
  - split; [by intros (? & ? & _)|]. intros H. destruct H. by left.
Qed.

(** The schema accepts a header exactly when none of the five fields is
    at fault. *)
Lemma schema_error_iff header :
  schema_error header ↔
  name_fails header ∨ description_too_short header
  ∨ license_misshapen header ∨ allowed_tools_misshapen header
  ∨ metadata_misshapen header.
Proof.
  unfold schema_error. rewrite <- okb_false.
  rewrite name_fails_okb, description_too_short_okb,
    license_misshapen_okb, allowed_tools_misshapen_okb,
    metadata_misshapen_okb.
  destruct header; try (split; [by left|done]).
  unfold SkillFrontmatterSchema_parse. rewrite !okb_ap. cbn [okb andb].
  rewrite !andb_false_iff. tauto.
Qed.

Lemma schema_ok_name header (frontmatter : SkillFrontmatter) :
  SkillFrontmatterSchema_parse header = POk frontmatter →
  get_field (js "name") header = Some (JString (fm_name frontmatter))
  ∧ get_field (js "description") header
    = Some (JString (fm_description frontmatter)).
Proof.
  destruct header; try done.
  unfold SkillFrontmatterSchema_parse.
  destruct (Zod.string name_checks _ _) as [n|] eqn:Hn; [|done].
  destruct (Zod.string description_checks _ _) as [d|] eqn:Hd; [|done].
  destruct (Zod.optional (Zod.string []) _ _); [|done].
  destruct (Zod.optional (Zod.array _) _ _); [|done].
  destruct (Zod.optional (Zod.record _) _ _); [|done].
  cbn [parsed_ap]. intros [= <-]. cbn [fm_name fm_description].
  apply string_POk in Hn as [Hn _]. by apply string_POk in Hd as [Hd _].
Qed.

End SchemaTheorems.

(** C2, as the specification states it, fails: a header whose [license] is
    a number is rejected although its name, its description, its
    [allowed-tools] and its [metadata] are not at fault. *)
Lemma C2_counterexample :
  ¬ (schema_error numeric_license_header ↔
     name_fails numeric_license_header
     ∨ description_too_short numeric_license_header
     ∨ allowed_tools_misshapen numeric_license_header
     ∨ metadata_misshapen numeric_license_header).
Proof.
  intros [Herr _].
  destruct Herr as [Hn|[Hd|[(v & Hv & _)|(v & Hv & _)]]].
  - by eexists.
  - apply Hn. exists (js "demo"). split; [done|].
    apply name_regex_test_spec. reflexivity.
  - apply Hd. eexists. split; [done|]. vm_compute. lia.
  - vm_compute in Hv. discriminate.
  - vm_compute in Hv. discriminate.
Qed.

(** C2, amended. For every raw header, validation fails with a [ZodError]
    if and only if [name] is not a string that matches the pattern of
    lowercase letters, digits and hyphens (the empty name does not match),
    or [description] is not a string of at least twenty code units, or
    [license] is present and is not a string, or [allowed-tools] is present
    and is not a sequence of strings, or [metadata] is present and is not a
    flat mapping from strings to strings; in every other case validation
    succeeds, and the record it returns carries the header's name. *)
Theorem C2_schema_error_iff (header : JsValue) :
  (schema_error header ↔
     name_fails header ∨ description_too_short header
     ∨ license_misshapen header ∨ allowed_tools_misshapen header
     ∨ metadata_misshapen header)
  ∧ (¬ schema_error header ↔
     ∃ frontmatter,
       SkillFrontmatterSchema_parse header = POk frontmatter
       ∧ get_field (js "name") header
         = Some (JString (fm_name frontmatter))).
Proof.
  split; [apply schema_error_iff|].
  unfold schema_error.
  destruct (SkillFrontmatterSchema_parse header) as [fm|issues] eqn:Hp.
  - split.
    + intros _. exists fm. split; [done|]. by apply schema_ok_name.
    + intros _ [issues [=]].
  - split.
    + intros H. destruct H. by exists issues.
    + by intros (fm & [=] & _).
Qed.

(** ** The console monad *)

Section ConsoleFacts.

Context {A B : Type}.
Implicit Types (body : A → B → Console A) (acc : A) (xs : list B).

Lemma console_bind_fst {C D} (m : Console C) (k : C → Console D) :
  (console_bind m k).1 = (k m.1).1.
Proof. destruct m as [c l1]. simpl. by destruct (k c). Qed.

Lemma console_bind_snd {C D} (m : Console C) (k : C → Console D) :
  (console_bind m k).2 = m.2 ++ (k m.1).2.
Proof. destruct m as [c l1]. simpl. by destruct (k c). Qed.

(** The value of a loop is the fold of the values of its body. *)
Lemma console_fold_fst body acc xs :
  (console_fold body acc xs).1 = foldl (λ a x, (body a x).1) acc xs.
Proof.
  revert acc. induction xs as [|x xs IH]; intros acc; [done|].
  cbn [console_fold foldl]. by rewrite console_bind_fst, IH.
Qed.

(** What holds of every entry the body logs holds of every entry the
    loop logs. *)
Lemma console_fold_log (P : LogEntry → Prop) body acc xs :
  (∀ a x, Forall P (body a x).2) →
  Forall P (console_fold body acc xs).2.
Proof.
  intros Hbody. revert acc.
  induction xs as [|x xs IH]; intros acc; [by constructor|].
  cbn [console_fold]. rewrite console_bind_snd.
  apply Forall_app. split; [apply Hbody | apply IH].
Qed.

End ConsoleFacts.

(** ** Parsing a skill *)

Section ParseFacts.

Variable fs : FileSystem.
Variable matter : jsstring → Result (JsValue * jsstring).

Implicit Types (skillPath baseDir text markdown : jsstring).

(** What [parseSkill] does once the file is read, split and validated. *)
Lemma parseSkill_validated skillPath baseDir text header markdown fm :
  readText fs skillPath = Ok text →
  matter text = Ok (header, markdown) →
  SkillFrontmatterSchema_parse header = POk fm →
  parseSkill fs matter skillPath baseDir
  = let skillDir := Path.basename (Path.dirname skillPath) in
    if bool_decide (fm_name fm ≠ skillDir) then
      (None,
       [ mkLog LogError
           [ CStr ([Ch.CROSS] ++ js " Name mismatch in "
                     ++ skillPath ++ js ":");
             CStr ([Ch.LF] ++ js "   Frontmatter name: "
                     ++ quoted (fm_name fm));
             CStr ([Ch.LF] ++ js "   Directory name: " ++ quoted skillDir);
             CStr ([Ch.LF] ++ js "   Fix: Update the 'name' field in "
                     ++ js "SKILL.md to match the directory name") ] ])
    else
      (Some (mkSkill (fm_name fm) (Path.dirname skillPath)
               (generateToolName skillPath baseDir) (fm_description fm)
               (fm_allowed_tools fm) (fm_metadata fm) (fm_license fm)
               (trim markdown) skillPath),
       []).
Proof.
  intros Hread Hmatter Hschema. unfold parseSkill.
  rewrite Hread, Hmatter, Hschema. cbv zeta.
  by case_bool_decide.
Qed.

Lemma console_forEach_errors {B} (body : B → Console unit) (xs : list B) :
  (∀ x, Forall (λ e, log_level e = LogError) (body x).2) →
  Forall (λ e, log_level e = LogError) (console_forEach body xs).2.
Proof.
  intros Hbody. apply console_fold_log. intros _ x. apply Hbody.
Qed.

(** Whatever it returns, [parseSkill] writes to the console with
    [console.error] only. *)
Lemma parseSkill_logs_errors skillPath baseDir :
  Forall (λ e, log_level e = LogError)
    (parseSkill fs matter skillPath baseDir).2.
Proof.
  unfold parseSkill.
  destruct (readText fs skillPath) as [text|msg];
    [|by repeat constructor].
  destruct (matter text) as [[header markdown]|msg];
    [|by repeat constructor].
  destruct (SkillFrontmatterSchema_parse header) as [fm|errors].
  - cbv zeta. case_bool_decide; by repeat constructor.
  - rewrite !console_bind_snd. repeat apply Forall_app_2.
    + by repeat constructor.
    + apply console_forEach_errors. intros x. by repeat constructor.
    + by constructor.
Qed.

(** A skill that [parseSkill] returns has a name the schema accepts, and
    its tool name is derived from the path and the root alone. *)
Lemma parseSkill_Some skillPath baseDir (skill : Skill) log :
  parseSkill fs matter skillPath baseDir = (Some skill, log) →
  name_regex_test (name skill) = true
  ∧ toolName skill = generateToolName skillPath baseDir.
Proof.
  unfold parseSkill.
  destruct (readText fs skillPath) as [text|msg]; [|done].
  destruct (matter text) as [[header markdown]|msg]; [|done].
  destruct (SkillFrontmatterSchema_parse header) as [fm|errors] eqn:Hfm.
  - cbv zeta. case_bool_decide; [done|]. intros [= <- _]. simpl.
    split; [|done].
    destruct header; try done. unfold SkillFrontmatterSchema_parse in Hfm.
    destruct (Zod.string name_checks _ _) as [n|] eqn:Hn; [|done].
    destruct (Zod.string description_checks _ _); [|done].
    destruct (Zod.optional (Zod.string []) _ _); [|done].
    destruct (Zod.optional (Zod.array _) _ _); [|done].
    destruct (Zod.optional (Zod.record _) _ _); [|done].
    cbn [parsed_ap] in Hfm. injection Hfm as <-. cbn [fm_name].
    apply string_POk in Hn as [_ Hn].
    apply name_checks_spec in Hn. by apply name_regex_test_spec.
  - intros Heq. apply (f_equal fst) in Heq.
    rewrite !console_bind_fst in Heq. done.
Qed.

End ParseFacts.

(** ** Trimming *)

Section TrimFacts.

Implicit Types (s : jsstring) (c : N) (p : N → bool).

Lemma take_drop_while p s : take_while p s ++ drop_while p s = s.
Proof.
  induction s as [|c s IH]; [done|]. simpl.
  destruct (p c); [|done]. simpl. by rewrite IH.
Qed.

Lemma drop_while_head p s c :
  head (drop_while p s) = Some c → p c = false.
Proof.
  induction s as [|d s IH]; [done|]. simpl.
  destruct (p d) eqn:Hd; [done|]. by intros [= <-].
Qed.

Lemma drop_while_id p s :
  (∀ c, head s = Some c → p c = false) → drop_while p s = s.
Proof.
  destruct s as [|c s]; [done|]. intros Hc. simpl.
  by rewrite (Hc c eq_refl).
Qed.

Lemma head_app_cons s1 s2 c : head s1 = Some c → head (s1 ++ s2) = Some c.
Proof. by destruct s1. Qed.

(** A trimmed string does not begin with white space. *)
Lemma trim_head s c : head (trim s) = Some c → is_js_space c = false.
Proof.
  unfold trim. intros Hc.
  apply (drop_while_head is_js_space s).
  set (s1 := drop_while is_js_space s) in *.
  rewrite <- (reverse_involutive s1).
  rewrite <- (take_drop_while is_js_space (reverse s1)), reverse_app.
  by apply head_app_cons.
Qed.

(** A trimmed string does not end with white space. *)
Lemma trim_last s c : last (trim s) = Some c → is_js_space c = false.
Proof.
  unfold trim. rewrite last_reverse. apply drop_while_head.
Qed.

Lemma trim_idempotent s : trim (trim s) = trim s.
Proof.
  unfold trim at 1.
  rewrite (drop_while_id _ (trim s)) by apply trim_head.
  rewrite drop_while_id.
  - apply reverse_involutive.
  - intros c. rewrite head_reverse. apply trim_last.
Qed.

Lemma take_while_Forall p s : Forall (λ c, p c = true) (take_while p s).
Proof.
  induction s as [|c s IH]; [done|]. simpl.
  destruct (p c) eqn:Hc; by constructor.
Qed.

(** Trimming removes white space from both ends and nothing else. *)
Lemma trim_decompose s :
  ∃ ws ws',
    s = ws ++ trim s ++ ws'
    ∧ Forall (λ c, is_js_space c = true) ws
    ∧ Forall (λ c, is_js_space c = true) ws'.
Proof.
  set (s1 := drop_while is_js_space s).
  exists (take_while is_js_space s),
         (reverse (take_while is_js_space (reverse s1))).
  split; [|split].
  - unfold trim. fold s1. rewrite <- reverse_app, take_drop_while.
    by rewrite reverse_involutive, take_drop_while.
  - apply take_while_Forall.
  - apply Forall_reverse, take_while_Forall.
Qed.

End TrimFacts.

(** C3. When the metadata file can be read, its header is well formed and
    passes the schema, and the declared name is the name of the containing
    directory, [parseSkill] returns a skill and logs nothing; the skill's
    name is the header's name; its content is the trimmed body, that is,
    the body without the white space at its two ends and with nothing else
    removed; and its tool name is [generateToolName] of the path and the
    root: whatever the file system and the header hold, a skill parsed from
    the same path under the same root has the same tool name. *)
Theorem C3_parseSkill_valid
    (fs : FileSystem) (matter : jsstring → Result (JsValue * jsstring))
    (skillPath baseDir text : jsstring) (header : JsValue)
    (markdown : jsstring) (frontmatter : SkillFrontmatter) :
  readText fs skillPath = Ok text →
  matter text = Ok (header, markdown) →
  SkillFrontmatterSchema_parse header = POk frontmatter →
  fm_name frontmatter = Path.basename (Path.dirname skillPath) →
  ∃ skill,
    parseSkill fs matter skillPath baseDir = (Some skill, [])
    ∧ get_field (js "name") header = Some (JString (name skill))
    ∧ content skill = trim markdown
    ∧ toolName skill = generateToolName skillPath baseDir
    ∧ (∀ fs' matter' skill' log',
         parseSkill fs' matter' skillPath baseDir = (Some skill', log') →
         toolName skill' = toolName skill)
    ∧ (∃ ws ws',
         markdown = ws ++ content skill ++ ws'
         ∧ Forall (λ c, is_js_space c = true) ws
         ∧ Forall (λ c, is_js_space c = true) ws')
    ∧ (∀ c, head (content skill) = Some c → is_js_space c = false)
    ∧ (∀ c, last (content skill) = Some c → is_js_space c = false).
Proof.
  intros Hread Hmatter Hschema Hname.
  rewrite (parseSkill_validated _ _ _ _ _ _ _ _ Hread Hmatter Hschema).
  cbv zeta. rewrite bool_decide_eq_false_2 by (by intros []).
  eexists. split; [done|]. simpl.
  split; [by apply schema_ok_name|]. split; [done|]. split; [done|].
  split; [|split; [|split]].
  - intros fs' matter' skill' log' Hparse.
    by apply parseSkill_Some in Hparse as [_ ->].
  - apply trim_decompose.
  - intros c. apply trim_head.
  - intros c. apply trim_last.
Qed.

(** The example of the specification: the body [# Hello] followed by a
    line feed is kept as [# Hello]. *)
Lemma C3_parseSkill_valid_witness :
  ∃ skill,
    parseSkill demo_fs demo_matter (js "/r/skills/demo/SKILL.md")
               (js "/r/skills") = (Some skill, [])
    ∧ get_field (js "name") demo_header = Some (JString (name skill))
    ∧ content skill = js "# Hello"
    ∧ toolName skill = js "skills_demo"
    ∧ (∀ fs' matter' skill' log',
         parseSkill fs' matter' (js "/r/skills/demo/SKILL.md")
                    (js "/r/skills") = (Some skill', log') →
         toolName skill' = toolName skill)
    ∧ (∃ ws ws',
         js "# Hello" ++ [Ch.LF] = ws ++ content skill ++ ws'
         ∧ Forall (λ c, is_js_space c = true) ws
         ∧ Forall (λ c, is_js_space c = true) ws')
    ∧ (∀ c, head (content skill) = Some c → is_js_space c = false)
    ∧ (∀ c, last (content skill) = Some c → is_js_space c = false).
Proof.
  apply (C3_parseSkill_valid demo_fs demo_matter
           (js "/r/skills/demo/SKILL.md") (js "/r/skills") demo_text
           demo_header (js "# Hello" ++ [Ch.LF])
           (mkFrontmatter (js "demo")
              (js "A demo skill for testing purposes.") None None None));
    vm_compute; reflexivity.
Defined.

(** C9. When the header passes the schema and the name it declares is not
    the name of the containing directory, [parseSkill] returns no skill and
    makes one call of [console.error], which shows the declared name and
    the directory name, each between double quotes. *)
Theorem C9_parseSkill_name_mismatch
    (fs : FileSystem) (matter : jsstring → Result (JsValue * jsstring))
    (skillPath baseDir text : jsstring) (header : JsValue)
    (markdown : jsstring) (frontmatter : SkillFrontmatter) :
  readText fs skillPath = Ok text →
  matter text = Ok (header, markdown) →
  SkillFrontmatterSchema_parse header = POk frontmatter →
  fm_name frontmatter ≠ Path.basename (Path.dirname skillPath) →
  ∃ diagnostic,
    parseSkill fs matter skillPath baseDir = (None, [diagnostic])
    ∧ log_level diagnostic = LogError
    ∧ mentions diagnostic (quoted (fm_name frontmatter))
    ∧ mentions diagnostic
        (quoted (Path.basename (Path.dirname skillPath))).
Proof.
  intros Hread Hmatter Hschema Hname.
  rewrite (parseSkill_validated _ _ _ _ _ _ _ _ Hread Hmatter Hschema).
  cbv zeta. rewrite bool_decide_eq_true_2 by done.
  eexists. split; [done|]. split; [done|]. split.
  - eexists. split; [apply list_elem_of_further, list_elem_of_here|].
    exists ([Ch.LF] ++ js "   Frontmatter name: "), [].
    rewrite app_nil_r. reflexivity.
  - eexists.
    split; [do 2 apply list_elem_of_further; apply list_elem_of_here|].
    exists ([Ch.LF] ++ js "   Directory name: "), [].
    rewrite app_nil_r. reflexivity.
Qed.

(** The example of the specification: the header declares [foo] and the
    file lies in the directory [bar]. *)
Lemma C9_parseSkill_name_mismatch_witness :
  ∃ diagnostic,
    parseSkill demo_fs demo_matter (js "/r/skills/bar/SKILL.md")
               (js "/r/skills") = (None, [diagnostic])
    ∧ log_level diagnostic = LogError
    ∧ mentions diagnostic (quoted (js "foo"))
    ∧ mentions diagnostic (quoted (js "bar")).
Proof.
  apply (C9_parseSkill_name_mismatch demo_fs demo_matter
           (js "/r/skills/bar/SKILL.md") (js "/r/skills") foo_text
           foo_header (js "Body" ++ [Ch.LF])
           (mkFrontmatter (js "foo")
              (js "A skill whose name is not its directory.")
              None None None));
    vm_compute; (reflexivity || discriminate).
Defined.

(** ** Discovery *)

Section DiscoveryFacts.

Variable fs : FileSystem.
Variable matter : jsstring → Result (JsValue * jsstring).

Implicit Types (skills : list Skill) (root : jsstring).

Lemma collect_matches_fst root skills (matches : list jsstring) :
  (console_fold (collect_match fs matter root) skills matches).1
  = skills ++ omap (λ found, (parseSkill fs matter found root).1) matches.
Proof.
  rewrite console_fold_fst. revert skills.
  induction matches as [|found matches IH]; intros skills; simpl.
  - by rewrite app_nil_r.
  - rewrite IH. unfold collect_match. rewrite console_bind_fst.
    destruct (parseSkill fs matter found root).1; simpl; [|done].
    by rewrite <- (assoc_L (++)).
Qed.

Lemma collect_root_fst skills root :
  (collect_root fs matter skills root).1
  = skills ++ omap (λ found, (parseSkill fs matter found root).1)
                   (matches_under fs root).
Proof.
  unfold collect_root, matches_under.
  destruct (scan fs _ root) as [matches|msg].
  - apply collect_matches_fst.
  - simpl. by rewrite app_nil_r.
Qed.

Lemma collect_roots_fst skills (roots : list jsstring) :
  (console_fold (collect_root fs matter) skills roots).1
  = skills ++ parse_results fs matter roots.
Proof.
  rewrite console_fold_fst. revert skills.
  induction roots as [|root roots IH]; intros skills; simpl.
  - by rewrite app_nil_r.
  - rewrite IH, collect_root_fst. by rewrite <- (assoc_L (++)).
Qed.

Lemma discoverSkills_fst (roots : list jsstring) :
  (discoverSkills fs matter roots).1 = parse_results fs matter roots.
Proof.
  unfold discoverSkills. rewrite !console_bind_fst. simpl.
  apply (collect_roots_fst []).
Qed.

Lemma collect_root_logs_errors skills root :
  Forall (λ e, log_level e = LogError)
    (collect_root fs matter skills root).2.
Proof.
  unfold collect_root. destruct (scan fs _ root); [|by constructor].
  apply console_fold_log. intros acc found.
  unfold collect_match. rewrite console_bind_snd. simpl.
  rewrite app_nil_r. apply parseSkill_logs_errors.
Qed.

(** The log of [discoverSkills]: the errors of the parses, then the
    warning when the array of duplicates is not empty. *)
Lemma discoverSkills_snd (roots : list jsstring) :
  ∃ parse_log,
    Forall (λ e, log_level e = LogError) parse_log
    ∧ (discoverSkills fs matter roots).2
      = parse_log
          ++ match discovered_duplicates fs matter roots with
             | [] => []
             | duplicates => [duplicates_warning duplicates]
             end.
Proof.
  exists (console_fold (collect_root fs matter) [] roots).2. split.
  - apply console_fold_log. apply collect_root_logs_errors.
  - unfold discovered_duplicates. rewrite discoverSkills_fst.
    unfold discoverSkills. rewrite !console_bind_snd. f_equal.
    rewrite (collect_roots_fst []). simpl. rewrite app_nil_r.
    by destruct (detect_duplicates _).
Qed.

End DiscoveryFacts.

(** C4. [discoverSkills] returns exactly the parse results that are not
    null, root by root in the order given and, within a root, match by
    match; no result is dropped, so an identifier occurs among the returned
    skills as often as among the parse results. *)
Theorem C4_discoverSkills_order
    (fs : FileSystem) (matter : jsstring → Result (JsValue * jsstring))
    (roots : list jsstring) :
  (discoverSkills fs matter roots).1 = parse_results fs matter roots
  ∧ ∀ id, occurrences id (discovered_ids fs matter roots)
          = occurrences id (toolName <$> parse_results fs matter roots).
Proof.
  split; [apply discoverSkills_fst|].
  intros id. unfold discovered_ids. by rewrite discoverSkills_fst.
Qed.

(** ** Duplicate tool names *)

Section DuplicateFacts.

Implicit Types (skills : list Skill) (id : jsstring)
               (seen : gset (list N)) (duplicates : list jsstring).

Lemma occurrences_cons id (y : jsstring) (l : list jsstring) :
  occurrences id (y :: l)
  = ((if bool_decide (y = id) then 1 else 0) + occurrences id l)%nat.
Proof.
  unfold occurrences. case_bool_decide.
  - by rewrite filter_cons_True.
  - by rewrite filter_cons_False.
Qed.

Lemma occurrences_app id (l1 l2 : list jsstring) :
  occurrences id (l1 ++ l2)
  = (occurrences id l1 + occurrences id l2)%nat.
Proof. unfold occurrences. by rewrite filter_app, length_app. Qed.

Lemma occurrences_pos id (l : list jsstring) :
  id ∈ l ↔ (1 ≤ occurrences id l)%nat.
Proof.
  induction l as [|y l IH].
  - split; [by intros ?%elem_of_nil | unfold occurrences; simpl; lia].
  - rewrite occurrences_cons, elem_of_cons, IH.
    case_bool_decide; split; try lia; naive_solver lia.
Qed.

(** The loop lists an identifier once for each of its occurrences after
    the first one seen. *)
Lemma detect_fold_occurrences skills seen duplicates id :
  occurrences id (foldl detect_step (seen, duplicates) skills).2
  = (occurrences id duplicates
     + if bool_decide (id ∈ seen)
       then occurrences id (toolName <$> skills)
       else pred (occurrences id (toolName <$> skills)))%nat.
Proof.
  revert seen duplicates.
  induction skills as [|skill skills IH]; intros seen duplicates.
  - cbn [foldl snd fmap list_fmap].
    change (occurrences id []) with 0%nat. case_bool_decide; simpl; lia.
  - cbn [foldl detect_step]. rewrite IH, fmap_cons, occurrences_cons.
    destruct (decide (toolName skill = id)) as [->|Hne].
    + rewrite (bool_decide_eq_true_2 (id ∈ seen ∪ {[id]}))
        by set_solver.
      rewrite (bool_decide_eq_true_2 (id = id)) by done.
      case_bool_decide.
      * rewrite occurrences_app, occurrences_cons.
        rewrite bool_decide_eq_true_2 by done.
        unfold occurrences at 2. simpl. lia.
      * simpl. lia.
    + rewrite (bool_decide_eq_false_2 (toolName skill = id)) by done.
      assert (occurrences id
                (if bool_decide (toolName skill ∈ seen)
                 then duplicates ++ [toolName skill] else duplicates)
              = occurrences id duplicates) as ->.
      { case_bool_decide; [|done].
        rewrite occurrences_app, occurrences_cons.
        rewrite bool_decide_eq_false_2 by done.
        unfold occurrences at 2. simpl. lia. }
      destruct (decide (id ∈ seen)) as [Hin|Hnin].
      * rewrite !bool_decide_eq_true_2 by set_solver. simpl. lia.
      * rewrite !bool_decide_eq_false_2 by set_solver. simpl. lia.
Qed.

Lemma detect_duplicates_occurrences skills id :
  occurrences id (detect_duplicates skills)
  = pred (occurrences id (toolName <$> skills)).
Proof.
  unfold detect_duplicates. rewrite detect_fold_occurrences.
  rewrite bool_decide_eq_false_2 by set_solver.
  unfold occurrences at 1. simpl. lia.
Qed.

End DuplicateFacts.

(** C7, as the specification states it, fails: the bundle [demo] lies in
    three roots, so its identifier occurs three times, and the array of
    duplicates lists it twice. *)
Lemma C7_counterexample :
  discovered_ids demo_fs demo_matter demo_roots
  = [js "skills_demo"; js "skills_demo"; js "skills_demo"]
  ∧ discovered_duplicates demo_fs demo_matter demo_roots
    = [js "skills_demo"; js "skills_demo"]
  ∧ ¬ listed_once (discovered_ids demo_fs demo_matter demo_roots)
                  (discovered_duplicates demo_fs demo_matter demo_roots).
Proof.
  split; [vm_compute; reflexivity|]. split; [vm_compute; reflexivity|].
  intros Honce. specialize (Honce (js "skills_demo")).
  vm_compute in Honce. discriminate.
Qed.

(** C7, amended. The diagnostic is an array, not a set: it lists an
    identifier once for each occurrence after the first among the collected
    skills, so it holds exactly the identifiers that occur more than once,
    an identifier of n occurrences n - 1 times. It is surfaced after the
    aggregation as one [console.warn] that carries the whole array, and
    only when the array is not empty; everything logged before it is an
    error of a parse. *)
Theorem C7_duplicates_diagnostic
    (fs : FileSystem) (matter : jsstring → Result (JsValue * jsstring))
    (roots : list jsstring) :
  (∀ id, occurrences id (discovered_duplicates fs matter roots)
         = pred (occurrences id (discovered_ids fs matter roots)))
  ∧ (∀ id, id ∈ discovered_duplicates fs matter roots
           ↔ (2 ≤ occurrences id (discovered_ids fs matter roots))%nat)
  ∧ ∃ parse_log,
      Forall (λ e, log_level e = LogError) parse_log
      ∧ (discoverSkills fs matter roots).2
        = parse_log
            ++ match discovered_duplicates fs matter roots with
               | [] => []
               | duplicates => [duplicates_warning duplicates]
               end.
Proof.
  split; [|split].
  - intros id. apply detect_duplicates_occurrences.
  - intros id. rewrite occurrences_pos.
    unfold discovered_duplicates, discovered_ids.
    rewrite detect_duplicates_occurrences. lia.
  - apply discoverSkills_snd.
Qed.

(** ** Resources *)

Section GlobFacts.

Implicit Types (es ch : list Entry) (segs : list jsstring)
               (seg n : jsstring) (pat : GlobPattern).

Lemma elem_of_concat_map {X Y} (f : X → list Y) (l : list X) (y : Y) :
  y ∈ concat (map f l) ↔ ∃ x, x ∈ l ∧ y ∈ f x.
Proof.
  induction l as [|x l IH]; simpl.
  - rewrite elem_of_nil. split; [done|]. by intros (? & ?%elem_of_nil & _).
  - rewrite elem_of_app, IH. split.
    + intros [Hy|(x' & Hx' & Hy)].
      * exists x. split; [apply list_elem_of_here | done].
      * exists x'. split; [by apply list_elem_of_further | done].
    + intros (x' & [->|Hx']%elem_of_cons & Hy); [by left|].
      right. by exists x'.
Qed.

Lemma elem_of_walk_order {X} (found : list (bool * list X)) (x : X) :
  x ∈ walk_order found ↔ ∃ f, f ∈ found ∧ x ∈ f.2.
Proof.
  unfold walk_order. rewrite elem_of_app, !elem_of_concat_map. split.
  - intros [(f & Hf & Hx)|(f & Hf & Hx)]; exists f; (split; [|exact Hx]).
    + by apply list_elem_of_filter in Hf as [_ Hf].
    + rewrite elem_of_reverse in Hf.
      by apply list_elem_of_filter in Hf as [_ Hf].
  - intros (f & Hf & Hx). destruct (f.1) eqn:Hdir; [right|left];
      exists f; (split; [|exact Hx]).
    + rewrite elem_of_reverse. by apply list_elem_of_filter.
    + by apply list_elem_of_filter.
Qed.

Lemma walk_in_entries pat es segs :
  segs ∈ walk_entries pat es ↔ ∃ e, e ∈ es ∧ segs ∈ walk pat e.
Proof.
  unfold walk_entries. rewrite elem_of_walk_order. split.
  - intros (f & Hf & Hx).
    apply (list_elem_of_fmap (λ c, (is_dir c, walk pat c))) in Hf
      as (e & -> & He).
    by exists e.
  - intros (e & He & Hx). exists (is_dir e, walk pat e). split; [|exact Hx].
    apply (list_elem_of_fmap (λ c, (is_dir c, walk pat c))). by exists e.
Qed.

(** Inside one directory the matching files come in the order of the
    listing, before anything below a subdirectory; what lies below a
    subdirectory listed later comes before what lies below one listed
    earlier. *)
Lemma walk_entries_file pat n t es :
  walk_entries pat (File n t :: es)
  = (if glob_file_matches pat n then [[n]] else []) ++ walk_entries pat es.
Proof.
  unfold walk_entries, walk_order. cbn [map is_dir walk].
  rewrite !filter_cons. cbn [fst].
  rewrite decide_True by done. rewrite decide_False by done.
  cbn [map snd concat]. by rewrite <- app_assoc.
Qed.

Lemma walk_entries_dirs pat n ch m ch' :
  walk_entries pat [Dir n ch; Dir m ch']
  = walk pat (Dir m ch') ++ walk pat (Dir n ch).
Proof.
  unfold walk_entries, walk_order. cbn [map is_dir].
  rewrite !filter_cons, filter_nil. cbn [fst].
  rewrite !(decide_False (P := true = false)) by done.
  rewrite !(decide_True (P := true = true)) by done.
  cbn [map snd concat reverse]. cbn. by rewrite app_nil_r.
Qed.

(** [walk] reports the chains of the files below that the pattern
    reaches, and nothing else. *)
Lemma walk_spec pat segs es :
  segs ∈ walk_entries pat es
  ↔ file_under es segs ∧ chain_matches pat segs = true.
Proof.
  split.
  - revert es. induction segs as [|n segs IH]; intros es.
    + intros (e & He & Hw)%walk_in_entries. destruct e as [m t|m ch].
      * simpl in Hw. destruct (glob_file_matches pat m);
          [by apply list_elem_of_singleton in Hw | by apply elem_of_nil in Hw].
      * simpl in Hw. destruct (hidden m); [by apply elem_of_nil in Hw|].
        by apply list_elem_of_fmap in Hw as (? & ? & _).
    + intros (e & He & Hw)%walk_in_entries. destruct e as [m t|m ch].
      * simpl in Hw. destruct (glob_file_matches pat m) eqn:Hm;
          [|by apply elem_of_nil in Hw].
        apply list_elem_of_singleton in Hw as [= -> ->].
        split; [by eapply file_here | done].
      * simpl in Hw. destruct (hidden m) eqn:Hm;
          [by apply elem_of_nil in Hw|].
        apply list_elem_of_fmap in Hw as (rest & [= -> ->] & Hrest).
        apply IH in Hrest as [Hunder Hchain].
        split; [by eapply file_deeper|].
        destruct rest as [|r rest]; [done|].
        cbn [chain_matches]. by rewrite Hm.
  - intros [Hunder Hchain].
    induction Hunder as [es n t Hin|es n ch segs Hin Hunder IH].
    + apply walk_in_entries. exists (File n t). split; [done|].
      simpl in *. rewrite Hchain. by apply list_elem_of_singleton.
    + destruct segs as [|r rest]; [by inversion Hunder|].
      cbn [chain_matches] in Hchain.
      apply andb_true_iff in Hchain as [Hn Hchain].
      apply walk_in_entries. exists (Dir n ch). split; [done|].
      simpl. apply negb_true_iff in Hn. rewrite Hn.
      apply list_elem_of_fmap. exists (r :: rest). split; [done|].
      by apply IH.
Qed.

Lemma chain_matches_any segs :
  chain_matches GlobAnyFile segs = true
  ↔ segs ≠ [] ∧ Forall (λ n, hidden n = false) segs.
Proof.
  induction segs as [|n segs IH]; [naive_solver|].
  destruct segs as [|r rest].
  - simpl. rewrite negb_true_iff, Forall_singleton. naive_solver.
  - cbn [chain_matches]. rewrite andb_true_iff, IH, negb_true_iff.
    rewrite (Forall_cons _ n). naive_solver.
Qed.

Lemma names_of_member e es :
  e ∈ es → proper_names es → Forall proper_segment (names_below e).
Proof.
  unfold proper_names. intros He Hall.
  apply Forall_forall. intros n Hn.
  rewrite Forall_forall in Hall. apply Hall.
  apply elem_of_concat_map. by exists e.
Qed.

(** In a tree of proper names, the chain of a file is made of proper
    segments. *)
Lemma file_under_proper es segs :
  file_under es segs → proper_names es → Forall proper_segment segs.
Proof.
  induction 1 as [es n t Hin|es n ch segs Hin Hunder IH]; intros Hnames.
  - pose proof (names_of_member _ _ Hin Hnames) as Hn.
    simpl in Hn. by apply Forall_singleton, Forall_singleton.
  - pose proof (names_of_member _ _ Hin Hnames) as Hn.
    simpl in Hn. apply Forall_cons in Hn as [Hn Hch].
    constructor; [done|]. by apply IH.
Qed.

Lemma file_under_not_nil es segs : file_under es segs → segs ≠ [].
Proof. by destruct 1. Qed.

End GlobFacts.

Section AbsoluteFacts.

Implicit Types (l : list jsstring) (seg : jsstring).

Lemma join_proper_nil l :
  Forall proper_segment l → join (js "/") l = [] → l = [].
Proof.
  intros Hall Hjoin. destruct l as [|w l]; [done|].
  destruct (join_proper_head (w :: l)) as (c & pre & Heq & _); [done..|].
  congruence.
Qed.

(** Two lists of proper segments with the same absolute path are the
    same. *)
Lemma absolute_inj l1 l2 :
  Forall proper_segment l1 → Forall proper_segment l2 →
  Path.absolute l1 = Path.absolute l2 → l1 = l2.
Proof.
  unfold Path.absolute. intros H1 H2 [= Heq].
  destruct l1 as [|w1 l1].
  - symmetry. by apply join_proper_nil.
  - destruct l2 as [|w2 l2].
    + by apply join_proper_nil.
    + rewrite <- (split_join Ch.SLASH (w1 :: l1));
        [|done|by apply proper_chain_slash_free].
      rewrite <- (split_join Ch.SLASH (w2 :: l2));
        [|done|by apply proper_chain_slash_free].
      change [Ch.SLASH] with (js "/"). by rewrite Heq.
Qed.

Lemma basename_cut (pre seg : jsstring) :
  seg ≠ [] → Ch.SLASH ∉ seg →
  Path.basename (pre ++ Ch.SLASH :: seg) = seg.
Proof.
  intros Hne Hfree. unfold Path.basename.
  rewrite reverse_app, reverse_cons, <- (assoc_L (++)).
  change ([Ch.SLASH] ++ reverse pre) with (Ch.SLASH :: reverse pre).
  assert (Forall (λ c, Path.not_slash c = true) (reverse seg)) as Hall
    by by apply Forall_reverse, slash_free_Forall.
  destruct (reverse seg) as [|d r] eqn:Hr.
  { apply (f_equal reverse) in Hr. rewrite reverse_involutive in Hr.
    by subst. }
  change ((d :: r) ++ Ch.SLASH :: reverse pre)
    with (d :: (r ++ Ch.SLASH :: reverse pre)).
  rewrite drop_while_stop.
  2:{ apply Forall_cons in Hall as [Hd _].
      apply is_slash_false. by apply not_slash_true. }
  change (d :: (r ++ Ch.SLASH :: reverse pre))
    with ((d :: r) ++ Ch.SLASH :: reverse pre).
  rewrite take_while_all_stop by done.
  by rewrite <- Hr, reverse_involutive.
Qed.

(** The base name of an absolute path is its last segment. *)
Lemma basename_absolute l seg :
  proper_segment seg → Path.basename (Path.absolute (l ++ [seg])) = seg.
Proof.
  intros (Hne & _ & _ & Hfree). unfold Path.absolute.
  destruct l as [|w l].
  - by apply (basename_cut []).
  - rewrite join_snoc by done.
    change (js "/" ++ seg) with (Ch.SLASH :: seg).
    by apply (basename_cut (Ch.SLASH :: _)).
Qed.

End AbsoluteFacts.

(** C6, as the specification states it, fails: the file [.env] lies in the
    bundle's directory and its name is not the metadata file name, yet its
    path is not among the resources, because the scan passes over names
    that begin with a period. *)
Lemma C6_counterexample :
  lookup_dir tool_fs (Path.resolve (fullPath tool_skill)) = Some tool_entries
  ∧ file_under tool_entries [js ".env"]
  ∧ js ".env" ≠ js "SKILL.md"
  ∧ resourcePaths tool_fs tool_skill
    = Ok [js "/b/tool/notes.txt"; js "/b/tool/docs/api.md"]
  ∧ js "/b/tool/.env" ∉ [js "/b/tool/notes.txt"; js "/b/tool/docs/api.md"].
Proof.
  split; [vm_compute; reflexivity|]. split; [|split; [|split]].
  - eapply file_here. unfold tool_entries.
    do 2 apply list_elem_of_further. apply list_elem_of_here.
  - vm_compute. discriminate.
  - vm_compute. reflexivity.
  - intros Hin. vm_compute in Hin.
    repeat (apply elem_of_cons in Hin as [Hin|Hin]; [discriminate|]).
    by apply elem_of_nil in Hin.
Qed.

(** C6, amended. For a bundle directory and a file below it at any depth,
    the resources hold the file's absolute path if and only if the file's
    name is not the metadata file name and no name on the chain from the
    bundle directory down to the file begins with a period: the scan does
    not report hidden files and does not descend into hidden directories.
    No path among the resources has the metadata file name as its base
    name, however deep the file lies. *)
Theorem C6_resourcePaths_spec
    (fs : FileSystem) (skill : Skill) (entries : list Entry)
    (segs : list jsstring) :
  lookup_dir fs (Path.resolve (fullPath skill)) = Some entries →
  proper_names entries →
  file_under entries segs →
  ∃ paths,
    resourcePaths fs skill = Ok paths
    ∧ Forall (λ found, Path.basename found ≠ js "SKILL.md") paths
    ∧ (Path.absolute (Path.resolve (fullPath skill) ++ segs) ∈ paths
       ↔ last segs ≠ Some (js "SKILL.md")
         ∧ Forall (λ n, hidden n = false) segs).
Proof.
  intros Hdir Hnames Hunder.
  unfold resourcePaths, scan. rewrite Hdir. eexists. split; [done|]. split.
  { apply Forall_forall. intros found Hfound.
    by apply list_elem_of_filter in Hfound as [? _]. }
  pose proof (file_under_proper _ _ Hunder Hnames) as Hproper.
  pose proof (resolve_proper (fullPath skill)) as Hbase.
  set (base := Path.resolve (fullPath skill)) in *.
  destruct (last segs) as [seg|] eqn:Hlast.
  2:{ apply last_None in Hlast. subst. by inversion Hunder. }
  apply last_Some in Hlast as [init ->].
  assert (proper_segment seg) as Hseg.
  { apply Forall_app in Hproper as [_ Hseg]. by inversion Hseg. }
  rewrite list_elem_of_filter, (assoc_L (++)), basename_absolute by done.
  rewrite <- (assoc_L (++)), list_elem_of_fmap. split.
  - intros [Hname (segs' & Heq & Hwalk)].
    apply walk_spec in Hwalk as [Hunder' Hchain].
    apply absolute_inj in Heq.
    + apply (inj (app base)) in Heq. subst segs'.
      apply chain_matches_any in Hchain as [_ Hvisible].
      split; [|done]. by intros [= ->].
    + by apply Forall_app.
    + apply Forall_app. split; [done|]. by eapply file_under_proper.
  - intros [Hname Hvisible]. split; [by intros ->|].
    exists (init ++ [seg]). split; [done|].
    apply walk_spec. split; [done|].
    apply chain_matches_any. split; [by destruct init | done].
Qed.

Lemma C6_resourcePaths_spec_witness :
  ∃ paths,
    resourcePaths tool_fs tool_skill = Ok paths
    ∧ Forall (λ found, Path.basename found ≠ js "SKILL.md") paths
    ∧ (Path.absolute (Path.resolve (fullPath tool_skill)
                        ++ [js "docs"; js "api.md"]) ∈ paths
       ↔ last [js "docs"; js "api.md"] ≠ Some (js "SKILL.md")
         ∧ Forall (λ n, hidden n = false) [js "docs"; js "api.md"]).
Proof.
  apply (C6_resourcePaths_spec tool_fs tool_skill tool_entries).
  - vm_compute. reflexivity.
  - unfold proper_names. vm_compute.
    repeat constructor; try discriminate;
      intros Hin; repeat (apply elem_of_cons in Hin as [Hin|Hin];
                          [discriminate|]); by apply elem_of_nil in Hin.
  - eapply file_deeper.
    + unfold tool_entries. do 4 apply list_elem_of_further.
      apply list_elem_of_here.
    + eapply file_here. apply list_elem_of_further, list_elem_of_here.
Defined.

(** ** Rendering *)

Section ReplaceFacts.

Implicit Types (s pat r before after x a : jsstring) (c p : N).

Lemma starts_with_app pat s : starts_with pat (pat ++ s) = true.
Proof.
  induction pat as [|p pat IH]; simpl; [by destruct s|].
  by rewrite N.eqb_refl, IH.
Qed.

Lemma substring_occurs needle hay :
  substring needle hay → occurs_in needle hay = true.
Proof.
  intros (pre & post & ->). induction pre as [|c pre IH].
  - simpl app. destruct (needle ++ post) eqn:Heq; simpl;
      rewrite <- ?Heq, starts_with_app; done.
  - cbn [app occurs_in]. rewrite IH. apply orb_true_r.
Qed.

(** A replacement text without a dollar sign stands for itself. *)
Lemma GetSubstitution_plain matched before after r :
  Ch.DOLLAR ∉ r → GetSubstitution matched before after r = r.
Proof.
  induction r as [|c r IH]; intros Hr; [done|].
  apply not_elem_of_cons in Hr as [Hc Hr]. cbn [GetSubstitution].
  destruct (N.eqb_spec c Ch.DOLLAR); [done|]. by rewrite IH.
Qed.

(** The scan passes over the rest of a match. *)
Lemma replaceAll_from_skip pat r x before s :
  replaceAll_from pat r (length x) before (x ++ s)
  = match s with
    | [] => []
    | _ => replaceAll_from pat r 0 (reverse x ++ before) s
    end.
Proof.
  revert before. induction x as [|c x IH]; intros before.
  - simpl. by destruct s.
  - cbn [length app replaceAll_from]. rewrite IH.
    by rewrite reverse_cons, <- (assoc_L (++)).
Qed.

Lemma replaceAll_from_nil pat r k before :
  replaceAll_from pat r k before [] = [].
Proof. by destruct k. Qed.

(** The scan copies text in which the first code unit of the pattern
    does not occur. *)
Lemma replaceAll_from_pass p pat r a before s :
  p ∉ a →
  replaceAll_from (p :: pat) r 0 before (a ++ s)
  = a ++ replaceAll_from (p :: pat) r 0 (reverse a ++ before) s.
Proof.
  revert before. induction a as [|c a IH]; intros before Ha; [done|].
  apply not_elem_of_cons in Ha as [Hc Ha].
  cbn [app replaceAll_from starts_with].
  destruct (N.eqb_spec p c) as [->|_]; [done|]. cbn [andb].
  rewrite IH by done. by rewrite reverse_cons, <- (assoc_L (++)).
Qed.

(** At a match the scan emits the substitution and goes on behind it. *)
Lemma replaceAll_from_hit p pat r before s :
  replaceAll_from (p :: pat) r 0 before ((p :: pat) ++ s)
  = GetSubstitution (p :: pat) (reverse before) s r
      ++ replaceAll_from (p :: pat) r 0 (reverse (p :: pat) ++ before) s.
Proof.
  change ((p :: pat) ++ s) with (p :: (pat ++ s)).
  cbn [replaceAll_from].
  change (p :: (pat ++ s)) with ((p :: pat) ++ s).
  rewrite starts_with_app, drop_app_length. f_equal.
  cbn [length]. rewrite Nat.sub_1_r. cbn [pred].
  rewrite replaceAll_from_skip.
  destruct s; [by rewrite replaceAll_from_nil|].
  by rewrite reverse_cons, <- (assoc_L (++)).
Qed.

(** One occurrence of the pattern, in a text that holds its first code
    unit nowhere else, and a replacement without a dollar sign. *)
Lemma replaceAll_once p pat r a b :
  p ∉ a → p ∉ b → Ch.DOLLAR ∉ r →
  replaceAll (a ++ (p :: pat) ++ b) (p :: pat) r = a ++ r ++ b.
Proof.
  intros Ha Hb Hr. unfold replaceAll.
  rewrite replaceAll_from_pass by done.
  rewrite replaceAll_from_hit, GetSubstitution_plain by done.
  rewrite <- (app_nil_r b) at 1.
  rewrite replaceAll_from_pass, replaceAll_from_nil by done.
  by rewrite app_nil_r.
Qed.

End ReplaceFacts.

Section RenderFacts.

Implicit Types (s pat r before after a b : jsstring) (c p : N).

(** One occurrence of the pattern, behind which the scan finds no other
    one, and a replacement without a dollar sign. *)
Lemma replaceAll_mid p pat r a b :
  p ∉ a → Ch.DOLLAR ∉ r →
  (∀ before, replaceAll_from (p :: pat) r 0 before b = b) →
  replaceAll (a ++ (p :: pat) ++ b) (p :: pat) r = a ++ r ++ b.
Proof.
  intros Ha Hr Hb. unfold replaceAll.
  rewrite replaceAll_from_pass by done.
  by rewrite replaceAll_from_hit, GetSubstitution_plain, Hb.
Qed.

(** No occurrence of the pattern: the text is returned as it is. *)
Lemma replaceAll_absent p pat r a b :
  p ∉ a →
  (∀ before, replaceAll_from (p :: pat) r 0 before b = b) →
  replaceAll (a ++ b) (p :: pat) r = a ++ b.
Proof.
  intros Ha Hb. unfold replaceAll.
  rewrite replaceAll_from_pass by done. by rewrite Hb.
Qed.

Lemma name_plain (s : jsstring) c :
  name_regex_test s = true → c = Ch.PERCENT ∨ c = Ch.DOLLAR → c ∉ s.
Proof.
  intros [_ Hs]%name_regex_test_spec Hc Hin.
  rewrite Forall_forall in Hs. specialize (Hs c Hin).
  unfold Ch.PERCENT, Ch.DOLLAR, Ch.HYPHEN in *. lia.
Qed.

Lemma join_plain c (sep : jsstring) (l : list jsstring) :
  c ∉ sep → Forall (λ s, c ∉ s) l → c ∉ join sep l.
Proof.
  intros Hsep. induction 1 as [|s l Hs Hl IH]; [apply not_elem_of_nil|].
  destruct l as [|s' l]; [done|].
  rewrite join_cons by done. rewrite !not_elem_of_app. by auto.
Qed.

End RenderFacts.

(** Where no dollar sign is involved, [render] builds the payload of the
    specification: the first block with the name and the body, and the
    block of resources exactly when the list is not empty, the paths one
    per line as they are listed. *)
Lemma render_dollar_free (skill : Skill) (paths : list jsstring) :
  name_regex_test (name skill) = true →
  Ch.DOLLAR ∉ content skill →
  Forall (λ found, Ch.DOLLAR ∉ found) paths →
  render skill paths = spec_payload skill paths.
Proof.
  intros Hname Hcontent Hpaths.
  pose proof (name_plain _ Ch.PERCENT Hname (or_introl eq_refl)) as Hpercent.
  pose proof (name_plain _ Ch.DOLLAR Hname (or_intror eq_refl)) as Hdollar.
  assert (replaceAll
            (replaceAll
               (replaceAll SKILL_PROMPT (js "%{name}") (name skill))
               (js "%{fullPath}") (fullPath skill))
            (js "%{content}") (content skill)
          = skill_block (name skill) (content skill)) as Hprompt.
  { change SKILL_PROMPT
      with ((js "<skill name=" ++ [Ch.DQUOTE]) ++ js "%{name}"
              ++ ([Ch.DQUOTE] ++ js ">" ++ [Ch.LF; Ch.LF] ++ js "%{content}"
                    ++ [Ch.LF; Ch.LF] ++ js "</skill>")).
    rewrite (replaceAll_mid Ch.PERCENT (js "{name}"));
      [|concrete_notin|done|by intros].
    rewrite (assoc_L (++) _ (name skill)).
    rewrite (replaceAll_absent Ch.PERCENT (js "{fullPath}"));
      [|rewrite not_elem_of_app; split; [concrete_notin|done]|by intros].
    change ([Ch.DQUOTE] ++ js ">" ++ [Ch.LF; Ch.LF] ++ js "%{content}"
              ++ [Ch.LF; Ch.LF] ++ js "</skill>")
      with (([Ch.DQUOTE] ++ js ">" ++ [Ch.LF; Ch.LF]) ++ js "%{content}"
              ++ ([Ch.LF; Ch.LF] ++ js "</skill>")).
    rewrite (assoc_L (++) _ ([Ch.DQUOTE] ++ js ">" ++ [Ch.LF; Ch.LF])).
    rewrite (replaceAll_once Ch.PERCENT (js "{content}"));
      [| |concrete_notin|done].
    - unfold skill_block. by rewrite <- !(assoc_L (++)).
    - rewrite !not_elem_of_app. split; [split; [concrete_notin|done]|].
      concrete_notin. }
  unfold render, spec_payload. rewrite Hprompt.
  destruct paths as [|found paths]; [by rewrite app_nil_r|].
  cbn [length Nat.ltb Nat.leb]. do 2 f_equal.
  change RESOURCES_PROMPT
    with ((js "<skill_resources>" ++ [Ch.LF] ++ js "IMPORTANT: The skill ")
            ++ js "%{name}"
            ++ (js " may reference certain resource files."
                  ++ js " Use their full paths:" ++ [Ch.LF; Ch.LF]
                  ++ js "%{paths}" ++ [Ch.LF] ++ js "</skill_resources>")).
  rewrite (replaceAll_mid Ch.PERCENT (js "{name}"));
    [|concrete_notin|done|by intros].
  change (js " may reference certain resource files."
            ++ js " Use their full paths:" ++ [Ch.LF; Ch.LF]
            ++ js "%{paths}" ++ [Ch.LF] ++ js "</skill_resources>")
    with ((js " may reference certain resource files. Use their full paths:"
             ++ [Ch.LF; Ch.LF])
            ++ js "%{paths}" ++ ([Ch.LF] ++ js "</skill_resources>")).
  rewrite (assoc_L (++) _ (name skill)), (assoc_L (++) _ (_ ++ [Ch.LF; Ch.LF])).
  rewrite (replaceAll_once Ch.PERCENT (js "{paths}")); [| |concrete_notin|].
  - unfold resources_block. by rewrite <- !(assoc_L (++)).
  - rewrite !not_elem_of_app. split; [split; [concrete_notin|done]|].
    concrete_notin.
  - apply join_plain; [concrete_notin|done].
Qed.

(** C5. The body [Run: kill -9 $$] reaches [replaceAll] as a replacement
    text, in which two dollar signs stand for one: the payload shows
    [Run: kill -9 $]. It is not the payload of the specification, and the
    body does not occur in it. *)
Theorem C5_render_dollar_body :
  render shell_skill [] = skill_block (js "shell") (js "Run: kill -9 $")
  ∧ render shell_skill [] ≠ spec_payload shell_skill []
  ∧ ¬ substring (content shell_skill) (render shell_skill []).
Proof.
  split; [vm_compute; reflexivity|]. split.
  - vm_compute. discriminate.
  - intros Hsub%substring_occurs. vm_compute in Hsub. discriminate.
Qed.

(** The example of the specification: the bundle [demo] with one note. *)
Example render_demo :
  render (mkSkill (js "demo") (js "/r/skills/demo") (js "skills_demo")
            (js "A demo skill for testing purposes.") None None None
            (js "# Hello") (js "/r/skills/demo/SKILL.md"))
         [js "/r/skills/demo/notes.txt"]
  = skill_block (js "demo") (js "# Hello") ++ [Ch.LF; Ch.LF]
      ++ resources_block (js "demo") [js "/r/skills/demo/notes.txt"].
Proof. vm_compute. reflexivity. Qed.


(** * Further properties of the code *)

(** ** The schema, field by field *)

Section SchemaRoundTrip.

Implicit Types (header v : JsValue) (path : list PathKey).

Lemma reports_ap {A B} (pf : Parsed (A → B)) (pa : Parsed A) :
  reports pf → reports pa → reports (parsed_ap pf pa).
Proof.
  destruct pf as [f|[|i1 is1]], pa as [a|[|i2 is2]]; simpl; done.
Qed.

Lemma reports_string checks path (v : option JsValue) :
  reports (Zod.string checks path v).
Proof.
  unfold Zod.string. destruct v as [[]|]; try done.
  by destruct (omap _ checks).
Qed.

Lemma reports_optional {A}
    (schema : list PathKey → option JsValue → Parsed A) path
    (v : option JsValue) :
  (∀ p w, reports (schema p w)) → reports (Zod.optional schema path v).
Proof.
  intros Hs. unfold Zod.optional. destruct v; [|done].
  by apply reports_ap.
Qed.

Lemma reports_items path i (l : list JsValue) :
  reports (Zod.items (Zod.string []) path i l).
Proof.
  revert i. induction l as [|v l IH]; intros i; [done|].
  cbn [Zod.items]. apply reports_ap; [|done].
  apply reports_ap; [done|apply reports_string].
Qed.

Lemma reports_entries path (fields : list (jsstring * JsValue)) :
  reports (Zod.entries (Zod.string []) path fields).
Proof.
  induction fields as [|[k v] fields IH]; [done|].
  cbn [Zod.entries]. apply reports_ap; [|done].
  apply reports_ap; [done|apply reports_string].
Qed.

Lemma reports_array path (v : option JsValue) :
  reports (Zod.array (Zod.string []) path v).
Proof.
  unfold Zod.array. destruct v as [[]|]; try done. apply reports_items.
Qed.

Lemma reports_record path (v : option JsValue) :
  reports (Zod.record (Zod.string []) path v).
Proof.
  unfold Zod.record. destruct v as [[]|]; try done. apply reports_entries.
Qed.

Lemma reports_schema header : reports (SkillFrontmatterSchema_parse header).
Proof.
  destruct header; try done. unfold SkillFrontmatterSchema_parse.
  repeat apply reports_ap; try done.
  - apply reports_string.
  - apply reports_string.
  - apply reports_optional. intros. apply reports_string.
  - apply reports_optional. intros. apply reports_array.
  - apply reports_optional. intros. apply reports_record.
Qed.

Lemma items_POk path i (l : list JsValue) (l' : list jsstring) :
  Zod.items (Zod.string []) path i l = POk l' → l = JString <$> l'.
Proof.
  revert i l'. induction l as [|v l IH]; intros i l'; cbn [Zod.items].
  - by intros [= <-].
  - destruct (Zod.string [] _ (Some v)) as [s|] eqn:Hs; [|done].
    destruct (Zod.items _ path (S i) l) as [r|] eqn:Hr; [|done].
    cbn [parsed_ap]. intros [= <-].
    apply string_POk in Hs as [[= ->] _]. by rewrite (IH _ _ Hr).
Qed.

Lemma entries_POk path (fields : list (jsstring * JsValue))
    (m : list (jsstring * jsstring)) :
  Zod.entries (Zod.string []) path fields = POk m →
  fields = prod_map id JString <$> m.
Proof.
  revert m. induction fields as [|[k v] fields IH]; intros m;
    cbn [Zod.entries].
  - by intros [= <-].
  - destruct (Zod.string [] _ (Some v)) as [s|] eqn:Hs; [|done].
    destruct (Zod.entries _ path fields) as [r|] eqn:Hr; [|done].
    cbn [parsed_ap]. intros [= <-].
    apply string_POk in Hs as [[= ->] _]. by rewrite (IH _ eq_refl).
Qed.

Lemma optional_POk {A}
    (schema : list PathKey → option JsValue → Parsed A) path
    (v : option JsValue) (r : option A) :
  Zod.optional schema path v = POk r →
  match r with
  | None => v = None
  | Some a => schema path v = POk a
  end.
Proof.
  unfold Zod.optional. destruct v as [w|]; [|by intros [= <-]].
  destruct (schema path (Some w)); [|done]. by intros [= <-].
Qed.

(** What the five parsers returned when the schema accepted a header. *)
Lemma schema_POk_fields header (fm : SkillFrontmatter) :
  SkillFrontmatterSchema_parse header = POk fm →
  Zod.string name_checks [Key (js "name")] (get_field (js "name") header)
  = POk (fm_name fm)
  ∧ Zod.string description_checks [Key (js "description")]
      (get_field (js "description") header) = POk (fm_description fm)
  ∧ Zod.optional (Zod.string []) [Key (js "license")]
      (get_field (js "license") header) = POk (fm_license fm)
  ∧ Zod.optional (Zod.array (Zod.string [])) [Key (js "allowed-tools")]
      (get_field (js "allowed-tools") header) = POk (fm_allowed_tools fm)
  ∧ Zod.optional (Zod.record (Zod.string [])) [Key (js "metadata")]
      (get_field (js "metadata") header) = POk (fm_metadata fm).
Proof.
  destruct header; try done. unfold SkillFrontmatterSchema_parse.
  destruct (Zod.string name_checks _ _); [|done].
  destruct (Zod.string description_checks _ _); [|done].
  destruct (Zod.optional (Zod.string []) _ _); [|done].
  destruct (Zod.optional (Zod.array _) _ _); [|done].
  destruct (Zod.optional (Zod.record _) _ _); [|done].
  cbn [parsed_ap]. by intros [= <-].
Qed.

End SchemaRoundTrip.

Lemma schema_round_trip (header : JsValue) (fm : SkillFrontmatter) :
  SkillFrontmatterSchema_parse header = POk fm →
  get_field (js "name") header = Some (string_value (fm_name fm))
  ∧ matches_name_pattern (fm_name fm)
  ∧ get_field (js "description") header
    = Some (string_value (fm_description fm))
  ∧ (20 ≤ length (fm_description fm))%nat
  ∧ get_field (js "license") header = string_value <$> fm_license fm
  ∧ get_field (js "allowed-tools") header
    = strings_value <$> fm_allowed_tools fm
  ∧ get_field (js "metadata") header = map_value <$> fm_metadata fm.
Proof.
  intros (Hn & Hd & Hl & Ht & Hm)%schema_POk_fields.
  apply string_POk in Hn as [Hn Hnc]. apply string_POk in Hd as [Hd Hdc].
  apply name_checks_spec in Hnc. apply description_checks_spec in Hdc.
  apply optional_POk in Hl. apply optional_POk in Ht.
  apply optional_POk in Hm.
  do 4 (split; [done|]). split; [|split].
  - destruct (fm_license fm) as [s|]; [|by rewrite Hl].
    by apply string_POk in Hl as [-> _].
  - destruct (fm_allowed_tools fm) as [l|]; [|by rewrite Ht].
    unfold Zod.array in Ht.
    destruct (get_field (js "allowed-tools") header) as [[]|]; try done.
    by apply items_POk in Ht as ->.
  - destruct (fm_metadata fm) as [m|]; [|by rewrite Hm].
    unfold Zod.record in Hm.
    destruct (get_field (js "metadata") header) as [[]|]; try done.
    by apply entries_POk in Hm as ->.
Qed.

Lemma items_strings (path : list PathKey) i (l : list jsstring) :
  Zod.items (Zod.string []) path i (JString <$> l) = POk l.
Proof.
  revert i. induction l as [|s l IH]; intros i; [done|].
  rewrite fmap_cons. cbn [Zod.items]. by rewrite IH.
Qed.

Lemma entries_strings (path : list PathKey)
    (m : list (jsstring * jsstring)) :
  Zod.entries (Zod.string []) path (prod_map id JString <$> m) = POk m.
Proof.
  induction m as [|[k s] m IH]; [done|].
  rewrite fmap_cons. cbn [Zod.entries prod_map fst snd id].
  by rewrite IH.
Qed.

Lemma schema_accepts_header_of (fm : SkillFrontmatter) :
  matches_name_pattern (fm_name fm) →
  (20 ≤ length (fm_description fm))%nat →
  SkillFrontmatterSchema_parse (header_of fm) = POk fm.
Proof.
  destruct fm as [n d l t m]. cbn [fm_name fm_description].
  intros Hn%name_checks_spec Hd%description_checks_spec.
  assert (Zod.string name_checks [Key (js "name")] (Some (JString n))
          = POk n) as Hname by by apply string_POk.
  assert (Zod.string description_checks [Key (js "description")]
            (Some (JString d)) = POk d) as Hdesc by by apply string_POk.
  unfold header_of.
  cbn [fm_name fm_description fm_license fm_allowed_tools fm_metadata].
  match goal with |- context [JObject ?f] => set (fields := f) end.
  unfold SkillFrontmatterSchema_parse.
  replace (get_field (js "name") (JObject fields))
    with (Some (JString n)) by reflexivity.
  replace (get_field (js "description") (JObject fields))
    with (Some (JString d)) by reflexivity.
  replace (get_field (js "license") (JObject fields))
    with (string_value <$> l) by by destruct l, t, m.
  replace (get_field (js "allowed-tools") (JObject fields))
    with (strings_value <$> t) by by destruct l, t, m.
  replace (get_field (js "metadata") (JObject fields))
    with (map_value <$> m) by by destruct l, t, m.
  rewrite Hname, Hdesc. clear fields.
  destruct l as [l|], t as [t|], m as [m|];
    unfold string_value, strings_value, map_value;
    cbn [fmap option_fmap option_map Zod.optional Zod.array Zod.record
         Zod.string omap list_omap];
    rewrite ?items_strings, ?entries_strings; reflexivity.
Qed.

(** X1. The schema and the record it returns are a round trip. A header
    the schema accepts can be read back from the record: the name and the
    description are the header's strings, of the pattern and of twenty code
    units at least, and [license], [allowed-tools] and [metadata] are
    absent from both or hold the same string, sequence of strings and
    string map. And a record with such a name and description is what the
    schema returns for the header that holds its fields. *)
Theorem X1_schema_round_trip :
  (∀ header fm,
     SkillFrontmatterSchema_parse header = POk fm →
     get_field (js "name") header = Some (string_value (fm_name fm))
     ∧ matches_name_pattern (fm_name fm)
     ∧ get_field (js "description") header
       = Some (string_value (fm_description fm))
     ∧ (20 ≤ length (fm_description fm))%nat
     ∧ get_field (js "license") header = string_value <$> fm_license fm
     ∧ get_field (js "allowed-tools") header
       = strings_value <$> fm_allowed_tools fm
     ∧ get_field (js "metadata") header = map_value <$> fm_metadata fm)
  ∧ (∀ fm,
       matches_name_pattern (fm_name fm) →
       (20 ≤ length (fm_description fm))%nat →
       SkillFrontmatterSchema_parse (header_of fm) = POk fm).
Proof.
  split.
  - intros header fm. apply schema_round_trip.
  - intros fm. apply schema_accepts_header_of.
Qed.

Lemma X1_schema_round_trip_witness :
  SkillFrontmatterSchema_parse
    (header_of (mkFrontmatter (js "demo")
                  (js "A demo skill for testing purposes.")
                  (Some (js "MIT")) (Some [js "read"; js "write"])
                  (Some [(js "version", js "1.0")])))
  = POk (mkFrontmatter (js "demo")
           (js "A demo skill for testing purposes.")
           (Some (js "MIT")) (Some [js "read"; js "write"])
           (Some [(js "version", js "1.0")])).
Proof.
  apply (proj2 X1_schema_round_trip).
  - apply name_regex_test_spec. vm_compute. reflexivity.
  - vm_compute. lia.
Defined.

(** X2. The schema reads the five fields it knows and nothing else: two
    objects that agree on them are parsed alike, whatever other keys they
    hold. *)
Theorem X2_schema_ignores_unknown_keys
    (fields1 fields2 : list (jsstring * JsValue)) :
  (∀ k, k ∈ known_keys → assoc k fields1 = assoc k fields2) →
  SkillFrontmatterSchema_parse (JObject fields1)
  = SkillFrontmatterSchema_parse (JObject fields2).
Proof.
  intros Hagree. unfold SkillFrontmatterSchema_parse, get_field.
  rewrite !Hagree; [done|unfold known_keys..];
    repeat (first [apply list_elem_of_here | apply list_elem_of_further]).
Qed.

Lemma X2_schema_ignores_unknown_keys_witness :
  SkillFrontmatterSchema_parse
    (JObject [ (js "version", JNumber 2);
               (js "name", JString (js "demo"));
               (js "description",
                JString (js "A demo skill for testing purposes.")) ])
  = SkillFrontmatterSchema_parse
      (JObject [ (js "name", JString (js "demo"));
                 (js "description",
                  JString (js "A demo skill for testing purposes.")) ]).
Proof.
  apply X2_schema_ignores_unknown_keys. intros k Hk.
  unfold known_keys in Hk.
  repeat (apply elem_of_cons in Hk as [->|Hk]; [vm_compute; reflexivity|]).
  by apply elem_of_nil in Hk.
Defined.

(** ** Parsing, failure by failure *)

Section ParseOutcomes.

Variable fs : FileSystem.
Variable matter : jsstring → Result (JsValue * jsstring).

Implicit Types (skillPath baseDir text markdown : jsstring).

Lemma console_forEach_snd {B} (body : B → Console unit) (xs : list B) :
  (console_forEach body xs).2 = xs ≫= λ x, (body x).2.
Proof.
  unfold console_forEach. generalize tt.
  induction xs as [|x xs IH]; intros u; [done|].
  cbn [console_fold]. rewrite console_bind_snd, IH. done.
Qed.

(** What [parseSkill] does with a header the schema rejects. *)
Lemma parseSkill_rejected skillPath baseDir text header markdown errors :
  readText fs skillPath = Ok text →
  matter text = Ok (header, markdown) →
  SkillFrontmatterSchema_parse header = PFail errors →
  parseSkill fs matter skillPath baseDir
  = (None,
     mkLog LogError
       [ CStr ([Ch.CROSS] ++ js " Invalid frontmatter in "
                 ++ skillPath ++ js ":") ]
     :: ((λ err, mkLog LogError [CStr (issue_line err)]) <$> errors)).
Proof.
  intros Hread Hmatter Hschema. unfold parseSkill.
  rewrite Hread, Hmatter, Hschema.
  apply injective_projections.
  - by rewrite !console_bind_fst.
  - rewrite !console_bind_snd, console_forEach_snd.
    assert ((errors ≫= λ err, (console_error [CStr (issue_line err)]).2)
            = (λ err, mkLog LogError [CStr (issue_line err)]) <$> errors)
      as ->.
    { clear. induction errors as [|err errors IH]; [done|].
      simpl. by f_equal. }
    simpl. by rewrite app_nil_r.
Qed.

(** A skill is returned on one path through [parseSkill] only. *)
Lemma parseSkill_Some_cases skillPath baseDir (skill : Skill) log :
  parseSkill fs matter skillPath baseDir = (Some skill, log) →
  ∃ text header markdown fm,
    readText fs skillPath = Ok text
    ∧ matter text = Ok (header, markdown)
    ∧ SkillFrontmatterSchema_parse header = POk fm
    ∧ fm_name fm = Path.basename (Path.dirname skillPath)
    ∧ log = []
    ∧ skill = mkSkill (fm_name fm) (Path.dirname skillPath)
                (generateToolName skillPath baseDir) (fm_description fm)
                (fm_allowed_tools fm) (fm_metadata fm) (fm_license fm)
                (trim markdown) skillPath.
Proof.
  intros Hparse.
  destruct (readText fs skillPath) as [text|msg] eqn:Hread.
  2:{ unfold parseSkill in Hparse. by rewrite Hread in Hparse. }
  destruct (matter text) as [[header markdown]|msg] eqn:Hmatter.
  2:{ unfold parseSkill in Hparse. by rewrite Hread, Hmatter in Hparse. }
  destruct (SkillFrontmatterSchema_parse header) as [fm|errors] eqn:Hschema.
  2:{ by rewrite (parseSkill_rejected _ _ _ _ _ _ Hread Hmatter Hschema)
        in Hparse. }
  rewrite (parseSkill_validated _ _ _ _ _ _ _ _ Hread Hmatter Hschema)
    in Hparse.
  cbv zeta in Hparse. case_bool_decide as Hname; [done|].
  injection Hparse as <- <-.
  exists text, header, markdown, fm.
  do 3 (split; [done|]). split; [|done].
  by destruct (decide (fm_name fm
                       = Path.basename (Path.dirname skillPath))).
Qed.

End ParseOutcomes.


(** X4. When the header is read but the schema rejects it, [parseSkill]
    returns no skill and logs one line that names the file and then one
    line for every issue, in the order of the issues; there is at least
    one issue. *)
Theorem X4_parseSkill_schema_failure
    (fs : FileSystem) (matter : jsstring → Result (JsValue * jsstring))
    (skillPath baseDir text : jsstring) (header : JsValue)
    (markdown : jsstring) (errors : list ZodIssue) :
  readText fs skillPath = Ok text →
  matter text = Ok (header, markdown) →
  SkillFrontmatterSchema_parse header = PFail errors →
  errors ≠ []
  ∧ parseSkill fs matter skillPath baseDir
    = (None,
       mkLog LogError
         [ CStr ([Ch.CROSS] ++ js " Invalid frontmatter in "
                   ++ skillPath ++ js ":") ]
       :: ((λ err, mkLog LogError [CStr (issue_line err)]) <$> errors)).
Proof.
  intros Hread Hmatter Hschema. split.
  - pose proof (reports_schema header) as Hrep.
    rewrite Hschema in Hrep. by destruct errors.
  - by apply (parseSkill_rejected _ _ _ _ text header markdown).
Qed.

Lemma X4_parseSkill_schema_failure_witness :
  [ mkIssue [Key (js "license")] (js "Expected string, received number") ]
  ≠ []
  ∧ parseSkill bad_fs bad_matter (js "/r/skills/demo/SKILL.md")
               (js "/r/skills")
    = (None,
       mkLog LogError
         [ CStr ([Ch.CROSS] ++ js " Invalid frontmatter in "
                   ++ js "/r/skills/demo/SKILL.md" ++ js ":") ]
       :: ((λ err, mkLog LogError [CStr (issue_line err)])
             <$> [ mkIssue [Key (js "license")]
                     (js "Expected string, received number") ])).
Proof.
  apply (X4_parseSkill_schema_failure bad_fs bad_matter
           (js "/r/skills/demo/SKILL.md") (js "/r/skills") bad_text
           numeric_license_header []);
    vm_compute; reflexivity.
Defined.

(** X5. A skill that [parseSkill] returns was parsed without a word on
    the console from a file that was read, split and validated; its path
    is the path given, its directory is the file's directory, its name is
    that directory's name and the name of the header, it matches the
    pattern of names, and its description is the header's, of twenty code
    units or more. *)
Theorem X5_parseSkill_skill_invariants
    (fs : FileSystem) (matter : jsstring → Result (JsValue * jsstring))
    (skillPath baseDir : jsstring) (skill : Skill) (log : list LogEntry) :
  parseSkill fs matter skillPath baseDir = (Some skill, log) →
  log = []
  ∧ path skill = skillPath
  ∧ fullPath skill = Path.dirname skillPath
  ∧ name skill = Path.basename (fullPath skill)
  ∧ matches_name_pattern (name skill)
  ∧ (20 ≤ length (description skill))%nat
  ∧ ∃ text header markdown,
      readText fs skillPath = Ok text
      ∧ matter text = Ok (header, markdown)
      ∧ get_field (js "name") header = Some (JString (name skill))
      ∧ get_field (js "description") header
        = Some (JString (description skill))
      ∧ get_field (js "license") header = string_value <$> license skill
      ∧ get_field (js "allowed-tools") header
        = strings_value <$> allowedTools skill
      ∧ get_field (js "metadata") header = map_value <$> metadata skill
      ∧ content skill = trim markdown.
Proof.
  intros (text & header & markdown & fm & Hread & Hmatter & Hschema
          & Hname & -> & ->)%parseSkill_Some_cases.
  cbn [name fullPath path description license allowedTools metadata content].
  apply schema_round_trip in Hschema
    as (Hn & Hpat & Hd & Hlen & Hl & Ht & Hm).
  do 6 (split; [done|]). by exists text, header, markdown.
Qed.

Lemma X5_parseSkill_skill_invariants_witness :
  @nil LogEntry = []
  ∧ path (mkSkill (js "demo") (js "/r/skills/demo") (js "skills_demo")
            (js "A demo skill for testing purposes.") None None None
            (js "# Hello") (js "/r/skills/demo/SKILL.md"))
    = js "/r/skills/demo/SKILL.md"
  ∧ js "/r/skills/demo" = Path.dirname (js "/r/skills/demo/SKILL.md")
  ∧ js "demo" = Path.basename (js "/r/skills/demo")
  ∧ matches_name_pattern (js "demo")
  ∧ (20 ≤ length (js "A demo skill for testing purposes."))%nat
  ∧ ∃ text header markdown,
      readText demo_fs (js "/r/skills/demo/SKILL.md") = Ok text
      ∧ demo_matter text = Ok (header, markdown)
      ∧ get_field (js "name") header = Some (JString (js "demo"))
      ∧ get_field (js "description") header
        = Some (JString (js "A demo skill for testing purposes."))
      ∧ get_field (js "license") header = string_value <$> None
      ∧ get_field (js "allowed-tools") header = strings_value <$> None
      ∧ get_field (js "metadata") header = map_value <$> None
      ∧ js "# Hello" = trim markdown.
Proof.
  apply (X5_parseSkill_skill_invariants demo_fs demo_matter
           (js "/r/skills/demo/SKILL.md") (js "/r/skills")
           (mkSkill (js "demo") (js "/r/skills/demo") (js "skills_demo")
              (js "A demo skill for testing purposes.") None None None
              (js "# Hello") (js "/r/skills/demo/SKILL.md")) []).
  vm_compute. reflexivity.
Defined.

(** X6. The content of a skill that [parseSkill] returns is trimmed: it
    neither begins nor ends with white space, and trimming it again
    changes nothing. *)
Theorem X6_parseSkill_content_trimmed
    (fs : FileSystem) (matter : jsstring → Result (JsValue * jsstring))
    (skillPath baseDir : jsstring) (skill : Skill) (log : list LogEntry) :
  parseSkill fs matter skillPath baseDir = (Some skill, log) →
  trim (content skill) = content skill
  ∧ (∀ c, head (content skill) = Some c → is_js_space c = false)
  ∧ (∀ c, last (content skill) = Some c → is_js_space c = false).
Proof.
  intros (text & header & markdown & fm & _ & _ & _ & _ & _ & ->)
           %parseSkill_Some_cases.
  cbn [content]. split; [apply trim_idempotent|].
  split; intros c; [apply trim_head | apply trim_last].
Qed.

Lemma X6_parseSkill_content_trimmed_witness :
  trim (js "# Hello") = js "# Hello"
  ∧ (∀ c, head (js "# Hello") = Some c → is_js_space c = false)
  ∧ (∀ c, last (js "# Hello") = Some c → is_js_space c = false).
Proof.
  apply (X6_parseSkill_content_trimmed demo_fs demo_matter
           (js "/r/skills/demo/SKILL.md") (js "/r/skills")
           (mkSkill (js "demo") (js "/r/skills/demo") (js "skills_demo")
              (js "A demo skill for testing purposes.") None None None
              (js "# Hello") (js "/r/skills/demo/SKILL.md")) []).
  vm_compute. reflexivity.
Defined.

(** ** Which files discovery finds *)

Section DiscoveryReach.

Implicit Types (es ch entries : list Entry) (segs init chain : list jsstring)
               (n seg : jsstring).

Lemma chain_matches_named n segs :
  chain_matches (GlobNamed n) segs = true
  ↔ ∃ init, segs = init ++ [n] ∧ Forall (λ d, hidden d = false) init.
Proof.
  induction segs as [|d segs IH].
  - split; [done|]. intros (init & Heq & _). by destruct init.
  - destruct segs as [|d' segs].
    + simpl. rewrite bool_decide_eq_true. split.
      * intros ->. by exists [].
      * intros ([|x [|y init]] & [= ] & _); by subst.
    + cbn [chain_matches]. rewrite andb_true_iff, IH, negb_true_iff. split.
      * intros [Hd (init & -> & Hinit)]. exists (d :: init).
        split; [done|]. by constructor.
      * intros ([|x init] & Heq & Hinit); [by destruct segs|].
        injection Heq as <- Heq. apply Forall_cons in Hinit as [Hx Hinit].
        split; [done|]. by exists init.
Qed.

Lemma find_child_Some n es (e : Entry) :
  find_child n es = Some e → e ∈ es ∧ entry_name e = n.
Proof.
  induction es as [|e' es IH]; [done|]. simpl. case_bool_decide.
  - intros [= ->]. split; [apply list_elem_of_here | done].
  - intros [Hin Hn]%IH. split; [by apply list_elem_of_further | done].
Qed.

Lemma proper_names_child es n ch :
  proper_names es → Dir n ch ∈ es → proper_names ch.
Proof.
  intros Hes Hin. pose proof (names_of_member _ _ Hin Hes) as Hall.
  simpl in Hall. by apply Forall_cons in Hall as [_ ?].
Qed.

Lemma proper_names_lookup es segs ch :
  lookup_dir es segs = Some ch → proper_names es → proper_names ch.
Proof.
  revert es. induction segs as [|seg segs IH]; intros es; simpl.
  - by intros [= ->].
  - destruct (find_child seg es) as [[|n ch']|] eqn:Hfind; try done.
    intros Hlook Hes. apply (IH ch'); [done|].
    apply find_child_Some in Hfind as [Hin _].
    by eapply proper_names_child.
Qed.

(** Resolving the absolute path of proper segments gives them back. *)
Lemma resolve_absolute segs :
  Forall proper_segment segs → Path.resolve (Path.absolute segs) = segs.
Proof.
  intros Hall. unfold Path.resolve, Path.absolute.
  assert (∀ s : jsstring,
            split Ch.SLASH (Ch.SLASH :: s) = [] :: split Ch.SLASH s) as ->
    by done.
  change (foldl Path.normalize_step [] ([] :: ?l))
    with (foldl Path.normalize_step [] l).
  assert (∀ acc, foldl Path.normalize_step acc segs = reverse segs ++ acc)
    as Hpush.
  { induction Hall as [|seg segs (Hne & Hdot & Hdots & _) _ IH];
      intros acc; [done|].
    cbn [foldl]. unfold Path.normalize_step at 2.
    rewrite !bool_decide_eq_false_2 by done.
    by rewrite IH, reverse_cons, <- (assoc_L (++)). }
  destruct segs as [|seg segs]; [done|].
  change (js "/") with [Ch.SLASH].
  rewrite split_join; [|done|by apply proper_chain_slash_free].
  by rewrite Hpush, app_nil_r, reverse_involutive.
Qed.

(** The directory of an absolute path: its segments but the last. *)
Lemma dirname_absolute segs seg :
  Forall proper_segment segs → proper_segment seg →
  Path.dirname (Path.absolute (segs ++ [seg]))
  = match segs with [] => js "/" | _ => Path.absolute segs end.
Proof.
  intros Hall (Hne & _ & _ & Hfree). unfold Path.absolute, Path.dirname.
  rewrite N.eqb_refl.
  assert (Forall (λ c, Path.not_slash c = true) (reverse seg)) as Hrev
    by by apply Forall_reverse, slash_free_Forall.
  destruct (reverse seg) as [|d r] eqn:Hr.
  { apply (f_equal reverse) in Hr. rewrite reverse_involutive in Hr.
    by subst. }
  assert (Path.is_slash d = false) as Hd.
  { apply Forall_cons in Hrev as [Hd _].
    apply is_slash_false. by apply not_slash_true. }
  destruct segs as [|w segs].
  - simpl app. cbn [join]. rewrite Hr, drop_while_stop by done.
    rewrite <- (app_nil_r (d :: r)). by rewrite drop_while_all.
  - rewrite join_snoc by done.
    rewrite !reverse_app, Hr, <- (assoc_L (++)).
    change (reverse (js "/")) with [Ch.SLASH].
    change ((d :: r) ++ [Ch.SLASH] ++ ?x) with (d :: (r ++ Ch.SLASH :: x)).
    rewrite drop_while_stop by done.
    change (d :: (r ++ Ch.SLASH :: ?x)) with ((d :: r) ++ Ch.SLASH :: x).
    rewrite drop_while_all by done.
    rewrite drop_while_stop by done.
    cbv beta iota. cbn [andb].
    rewrite bool_decide_eq_false_2; [by rewrite reverse_involutive|].
    intros Hnil. apply (f_equal reverse) in Hnil.
    rewrite reverse_involutive in Hnil.
    destruct (join_proper_head (w :: segs)) as (c & pre & Heq & _);
      [done..|].
    by rewrite Heq in Hnil.
Qed.

(** A skill among the results comes from a match under one of the
    roots. *)
Lemma discovered_from_match (fs : FileSystem)
    (matter : jsstring → Result (JsValue * jsstring))
    (roots : list jsstring) (skill : Skill) :
  skill ∈ (discoverSkills fs matter roots).1 →
  ∃ root found log,
    root ∈ roots ∧ found ∈ matches_under fs root
    ∧ parseSkill fs matter found root = (Some skill, log).
Proof.
  rewrite discoverSkills_fst. unfold parse_results.
  intros (root & Hskill & Hroot)%list_elem_of_bind.
  apply list_elem_of_omap in Hskill as (found & Hfound & Hparse).
  exists root, found, (parseSkill fs matter found root).2.
  do 2 (split; [done|]).
  by destruct (parseSkill fs matter found root) as [? ?]; simpl in *; subst.
Qed.

Lemma matches_under_chain (fs : FileSystem) (root found : jsstring) :
  found ∈ matches_under fs root →
  ∃ entries init,
    lookup_dir fs (Path.resolve root) = Some entries
    ∧ file_under entries (init ++ [js "SKILL.md"])
    ∧ Forall (λ d, hidden d = false) init
    ∧ found = Path.absolute (Path.resolve root ++ init ++ [js "SKILL.md"]).
Proof.
  unfold matches_under, scan.
  destruct (lookup_dir fs (Path.resolve root)) as [entries|];
    [|by intros ?%elem_of_nil].
  intros (segs & -> & [Hunder Hchain]%walk_spec)%list_elem_of_fmap.
  apply chain_matches_named in Hchain as (init & -> & Hinit).
  by exists entries, init.
Qed.

End DiscoveryReach.

(** X7. Discovery matches, under a root that is a directory, exactly the
    files named [SKILL.md] that lie below it along a chain of directories
    none of whose names begins with a period, each under its absolute
    path; under a root that is not a directory it matches nothing. *)
Theorem X7_matches_under_spec (fs : FileSystem) (root found : jsstring) :
  found ∈ matches_under fs root
  ↔ ∃ entries init,
      lookup_dir fs (Path.resolve root) = Some entries
      ∧ file_under entries (init ++ [js "SKILL.md"])
      ∧ Forall (λ d, hidden d = false) init
      ∧ found
        = Path.absolute (Path.resolve root ++ init ++ [js "SKILL.md"]).
Proof.
  split; [apply matches_under_chain|].
  intros (entries & init & Hdir & Hunder & Hinit & ->).
  unfold matches_under, scan. rewrite Hdir.
  apply list_elem_of_fmap. exists (init ++ [js "SKILL.md"]).
  split; [done|]. apply walk_spec. split; [done|].
  apply chain_matches_named. by exists init.
Qed.

(** X8. In a tree of proper names, every skill that discovery returns
    lies under one of the roots, in a file [SKILL.md] at the end of a
    chain of directories whose names do not begin with a period; its tool
    name is the prefix followed by that chain, joined with underscores
    and with underscores for hyphens; and the last directory of the chain
    is the skill's name. *)
Theorem X8_discovered_skill_naming
    (fs : FileSystem) (matter : jsstring → Result (JsValue * jsstring))
    (roots : list jsstring) (skill : Skill) :
  proper_names fs →
  skill ∈ (discoverSkills fs matter roots).1 →
  ∃ root chain,
    root ∈ roots
    ∧ path skill
      = Path.absolute (Path.resolve root ++ chain ++ [js "SKILL.md"])
    ∧ Forall (λ d, hidden d = false) chain
    ∧ toolName skill
      = js "skills_" ++ replace_hyphens (join (js "_") chain)
    ∧ ∀ dir, last chain = Some dir → name skill = dir.
Proof.
  intros Hnames (root & found & log & Hroot & Hmatch & Hparse)
                  %discovered_from_match.
  apply matches_under_chain
    in Hmatch as (entries & chain & Hdir & Hunder & Hvisible & ->).
  pose proof (proper_names_lookup _ _ _ Hdir Hnames) as Hentries.
  pose proof (file_under_proper _ _ Hunder Hentries) as Hchain.
  pose proof (resolve_proper root) as Hbase.
  apply parseSkill_Some_cases in Hparse
    as (text & header & markdown & fm & _ & _ & _ & Hname & _ & ->).
  cbn [path toolName name]. exists root, chain.
  do 3 (split; [done|]). split.
  - apply (generateToolName_below _ _ _ (js "SKILL.md")).
    unfold below. apply resolve_absolute. by apply Forall_app.
  - intros dir [init ->]%last_Some. rewrite Hname.
    apply Forall_app in Hchain as [Hchain Hfile].
    apply Forall_app in Hchain as [Hinit Hdirp].
    rewrite !(assoc_L (++)), dirname_absolute.
    + destruct ((Path.resolve root ++ init) ++ [dir]) eqn:Heq;
        [by destruct (Path.resolve root ++ init)|].
      rewrite <- Heq. apply basename_absolute. by inversion Hdirp.
    + repeat apply Forall_app_2; done.
    + by inversion Hfile.
Qed.

Lemma X8_discovered_skill_naming_witness :
  ∃ root chain,
    root ∈ demo_roots
    ∧ js "/etc/skills/demo/SKILL.md"
      = Path.absolute (Path.resolve root ++ chain ++ [js "SKILL.md"])
    ∧ Forall (λ d, hidden d = false) chain
    ∧ js "skills_demo"
      = js "skills_" ++ replace_hyphens (join (js "_") chain)
    ∧ ∀ dir, last chain = Some dir → js "demo" = dir.
Proof.
  apply (X8_discovered_skill_naming demo_fs demo_matter demo_roots
           (mkSkill (js "demo") (js "/etc/skills/demo") (js "skills_demo")
              (js "A demo skill for testing purposes.") None None None
              (js "# Hello") (js "/etc/skills/demo/SKILL.md"))).
  - concrete_proper.
  - vm_compute. do 2 apply list_elem_of_further. apply list_elem_of_here.
Defined.

(** ** Invoking what was discovered *)

Section InvokeFacts.

Implicit Types (es ch entries : list Entry) (segs init : list jsstring)
               (n seg : jsstring).

Lemma find_child_unique es (e : Entry) :
  NoDup (entry_name <$> es) → e ∈ es →
  find_child (entry_name e) es = Some e.
Proof.
  induction es as [|e' es IH]; [by intros _ ?%elem_of_nil|].
  rewrite fmap_cons. intros [Hnotin Hnodup]%NoDup_cons Hin. simpl.
  apply elem_of_cons in Hin as [->|Hin].
  - by rewrite bool_decide_eq_true_2.
  - rewrite bool_decide_eq_false_2; [by apply IH|].
    intros Heq. apply Hnotin. rewrite Heq.
    apply list_elem_of_fmap. by exists e.
Qed.

Lemma unique_names_child es n ch :
  unique_names es → Dir n ch ∈ es → unique_names ch.
Proof. intros [es' _ Hch] Hin. exact (Hch n ch Hin). Qed.

Lemma unique_names_lookup es segs ch :
  lookup_dir es segs = Some ch → unique_names es → unique_names ch.
Proof.
  revert es. induction segs as [|seg segs IH]; intros es; simpl.
  - by intros [= ->].
  - destruct (find_child seg es) as [[|n ch']|] eqn:Hfind.
    + by intros [=].
    + intros Hlook Hes. apply (IH ch'); [exact Hlook|].
      apply find_child_Some in Hfind as [Hin _].
      eapply unique_names_child; eassumption.
    + by intros [=].
Qed.

Lemma lookup_dir_app es (a b : list jsstring) :
  lookup_dir es (a ++ b) = lookup_dir es a ≫= λ ch, lookup_dir ch b.
Proof.
  revert es. induction a as [|seg a IH]; intros es; [done|]. simpl.
  by destruct (find_child seg es) as [[|n ch]|].
Qed.

(** With distinct names, the directory of a file below is found by
    lookup. *)
Lemma file_under_lookup es init n :
  unique_names es → file_under es (init ++ [n]) →
  is_Some (lookup_dir es init).
Proof.
  revert es. induction init as [|d init IH]; intros es Hes Hunder;
    [by eexists|].
  inversion Hunder as [? ? ? ? Heq|? ? ch ? Hin Hdeeper]; subst.
  { by destruct init. }
  destruct Hes as [es Hnodup Hch].
  pose proof (find_child_unique es (Dir d ch) Hnodup Hin) as Hfind.
  simpl in Hfind. simpl. rewrite Hfind.
  apply IH; [exact (Hch d ch Hin) | exact Hdeeper].
Qed.

End InvokeFacts.

(** X9. On a file system of proper and distinct names, the tool of
    every discovered skill can be invoked: the scan of the skill's
    directory does not throw, and [execute] returns the text rendered from
    the skill and its resources. *)
Theorem X9_execute_discovered
    (fs : FileSystem) (matter : jsstring → Result (JsValue * jsstring))
    (roots : list jsstring) (skill : Skill) :
  proper_names fs → unique_names fs →
  skill ∈ (discoverSkills fs matter roots).1 →
  ∃ paths,
    resourcePaths fs skill = Ok paths
    ∧ Forall (λ found, Path.basename found ≠ js "SKILL.md") paths
    ∧ execute fs skill = Ok (render skill paths).
Proof.
  intros Hnames Hunique (root & found & log & Hroot & Hmatch & Hparse)
                          %discovered_from_match.
  apply matches_under_chain
    in Hmatch as (entries & chain & Hdir & Hunder & Hvisible & ->).
  pose proof (proper_names_lookup _ _ _ Hdir Hnames) as Hentries.
  pose proof (file_under_proper _ _ Hunder Hentries) as Hchain.
  pose proof (resolve_proper root) as Hbase.
  apply parseSkill_Some_cases in Hparse
    as (text & header & markdown & fm & _ & _ & _ & _ & _ & ->).
  apply Forall_app in Hchain as [Hchain Hfile].
  assert (lookup_dir fs (Path.resolve
                           (Path.dirname
                              (Path.absolute
                                 (Path.resolve root ++ chain
                                    ++ [js "SKILL.md"]))))
          = lookup_dir entries chain) as Hlook.
  { rewrite (assoc_L (++)), dirname_absolute;
      [|by apply Forall_app|by inversion Hfile].
    assert (Path.resolve
              match Path.resolve root ++ chain with
              | [] => js "/"
              | _ => Path.absolute (Path.resolve root ++ chain)
              end = Path.resolve root ++ chain) as ->.
    { destruct (Path.resolve root ++ chain) eqn:Heq; [done|].
      rewrite <- Heq. apply resolve_absolute. by apply Forall_app. }
    by rewrite lookup_dir_app, Hdir. }
  destruct (file_under_lookup entries chain (js "SKILL.md")) as [ch Hch];
    [exact (unique_names_lookup _ _ _ Hdir Hunique) | exact Hunder |].
  unfold execute, resourcePaths, scan. cbn [fullPath].
  rewrite Hlook, Hch. eexists. split; [done|]. split; [|done].
  apply Forall_forall. intros found Hfound.
  by apply list_elem_of_filter in Hfound as [? _].
Qed.

Lemma X9_execute_discovered_witness :
  ∃ paths,
    resourcePaths demo_fs
      (mkSkill (js "demo") (js "/r/skills/demo") (js "skills_demo")
         (js "A demo skill for testing purposes.") None None None
         (js "# Hello") (js "/r/skills/demo/SKILL.md")) = Ok paths
    ∧ Forall (λ found, Path.basename found ≠ js "SKILL.md") paths
    ∧ execute demo_fs
        (mkSkill (js "demo") (js "/r/skills/demo") (js "skills_demo")
           (js "A demo skill for testing purposes.") None None None
           (js "# Hello") (js "/r/skills/demo/SKILL.md"))
      = Ok (render
              (mkSkill (js "demo") (js "/r/skills/demo") (js "skills_demo")
                 (js "A demo skill for testing purposes.") None None None
                 (js "# Hello") (js "/r/skills/demo/SKILL.md")) paths).
Proof.
  apply (X9_execute_discovered demo_fs demo_matter demo_roots).
  - concrete_proper.
  - unfold demo_fs, demo_bundle. concrete_unique.
  - vm_compute. apply list_elem_of_here.
Defined.

(** ** The payload in general *)

Section PayloadFacts.

Implicit Types (s pat r a b : jsstring) (p : N).

(** One occurrence of the pattern, in a text that holds its first code
    unit nowhere else: the occurrence gives way to the substitution. *)
Lemma replaceAll_once_subst p pat r a b :
  p ∉ a → p ∉ b →
  replaceAll (a ++ (p :: pat) ++ b) (p :: pat) r
  = a ++ GetSubstitution (p :: pat) a b r ++ b.
Proof.
  intros Ha Hb. unfold replaceAll.
  rewrite replaceAll_from_pass by done.
  rewrite replaceAll_from_hit, app_nil_r, reverse_involutive.
  rewrite <- (app_nil_r b) at 2.
  rewrite replaceAll_from_pass, replaceAll_from_nil by done.
  by rewrite app_nil_r.
Qed.

Lemma replace_hyphens_plain (s : jsstring) c :
  c ≠ Ch.UNDERSCORE → c ∉ s → c ∉ replace_hyphens s.
Proof.
  intros Hc Hs (d & Heq & Hd)%list_elem_of_fmap.
  destruct (N.eqb_spec d Ch.HYPHEN); [done|]. by subst.
Qed.

Lemma replace_hyphens_no_hyphen (s : jsstring) :
  Ch.HYPHEN ∉ replace_hyphens s.
Proof.
  intros (d & Heq & Hd)%list_elem_of_fmap.
  destruct (N.eqb_spec d Ch.HYPHEN); [done|]. by subst.
Qed.

End PayloadFacts.

(** X10. For a skill whose name the schema accepts, the payload is the
    frame of the first template around the body, as [replaceAll] expands
    it between the text before and the text after, and, exactly when
    there are resources, two line feeds and the frame of the second
    template around the paths, joined with line feeds and expanded
    likewise. The directory of the skill never shows: the template holds
    no place for it. *)
Theorem X10_render_frame (skill : Skill) (paths : list jsstring) :
  name_regex_test (name skill) = true →
  render skill paths
  = before_body (name skill)
      ++ GetSubstitution (js "%{content}") (before_body (name skill))
           after_body (content skill)
      ++ after_body
      ++ match paths with
         | [] => []
         | _ =>
             [Ch.LF; Ch.LF] ++ before_paths (name skill)
               ++ GetSubstitution (js "%{paths}") (before_paths (name skill))
                    after_paths (join [Ch.LF] paths)
               ++ after_paths
         end.
Proof.
  intros Hname.
  pose proof (name_plain _ Ch.PERCENT Hname (or_introl eq_refl)) as Hpercent.
  pose proof (name_plain _ Ch.DOLLAR Hname (or_intror eq_refl)) as Hdollar.
  assert (replaceAll
            (replaceAll
               (replaceAll SKILL_PROMPT (js "%{name}") (name skill))
               (js "%{fullPath}") (fullPath skill))
            (js "%{content}") (content skill)
          = before_body (name skill)
              ++ GetSubstitution (js "%{content}") (before_body (name skill))
                   after_body (content skill)
              ++ after_body) as Hprompt.
  { change SKILL_PROMPT
      with ((js "<skill name=" ++ [Ch.DQUOTE]) ++ js "%{name}"
              ++ ([Ch.DQUOTE] ++ js ">" ++ [Ch.LF; Ch.LF] ++ js "%{content}"
                    ++ [Ch.LF; Ch.LF] ++ js "</skill>")).
    rewrite (replaceAll_mid Ch.PERCENT (js "{name}"));
      [|concrete_notin|done|by intros].
    rewrite (assoc_L (++) _ (name skill)).
    rewrite (replaceAll_absent Ch.PERCENT (js "{fullPath}"));
      [|rewrite not_elem_of_app; split; [concrete_notin|done]|by intros].
    change ([Ch.DQUOTE] ++ js ">" ++ [Ch.LF; Ch.LF] ++ js "%{content}"
              ++ [Ch.LF; Ch.LF] ++ js "</skill>")
      with (([Ch.DQUOTE] ++ js ">" ++ [Ch.LF; Ch.LF]) ++ js "%{content}"
              ++ after_body).
    rewrite (assoc_L (++) _ ([Ch.DQUOTE] ++ js ">" ++ [Ch.LF; Ch.LF])).
    assert (((js "<skill name=" ++ [Ch.DQUOTE]) ++ name skill)
              ++ [Ch.DQUOTE] ++ js ">" ++ [Ch.LF; Ch.LF]
            = before_body (name skill)) as ->
      by (unfold before_body; by rewrite <- !(assoc_L (++))).
    apply (replaceAll_once_subst Ch.PERCENT (js "{content}"));
      [|concrete_notin].
    unfold before_body. rewrite !not_elem_of_app.
    repeat split; try done; concrete_notin. }
  unfold render. rewrite Hprompt.
  destruct paths as [|found paths]; [by rewrite app_nil_r|].
  cbn [length Nat.ltb Nat.leb].
  rewrite <- !app_assoc. do 4 f_equal.
  change RESOURCES_PROMPT
    with ((js "<skill_resources>" ++ [Ch.LF] ++ js "IMPORTANT: The skill ")
            ++ js "%{name}"
            ++ (js " may reference certain resource files."
                  ++ js " Use their full paths:" ++ [Ch.LF; Ch.LF]
                  ++ js "%{paths}" ++ [Ch.LF] ++ js "</skill_resources>")).
  rewrite (replaceAll_mid Ch.PERCENT (js "{name}"));
    [|concrete_notin|done|by intros].
  change (js " may reference certain resource files."
            ++ js " Use their full paths:" ++ [Ch.LF; Ch.LF]
            ++ js "%{paths}" ++ [Ch.LF] ++ js "</skill_resources>")
    with ((js " may reference certain resource files. Use their full paths:"
             ++ [Ch.LF; Ch.LF])
            ++ js "%{paths}" ++ after_paths).
  rewrite (assoc_L (++) _ (name skill)),
    (assoc_L (++) _ (_ ++ [Ch.LF; Ch.LF])).
  assert (((js "<skill_resources>" ++ [Ch.LF] ++ js "IMPORTANT: The skill ")
             ++ name skill)
            ++ js " may reference certain resource files. Use their full paths:"
            ++ [Ch.LF; Ch.LF]
          = before_paths (name skill)) as ->
    by (unfold before_paths; by rewrite <- !(assoc_L (++))).
  rewrite (replaceAll_once_subst Ch.PERCENT (js "{paths}"));
    [done| |concrete_notin].
  unfold before_paths. rewrite !not_elem_of_app.
  repeat split; try done; concrete_notin.
Qed.

Lemma X10_render_frame_witness :
  render shell_skill []
  = before_body (name shell_skill)
      ++ GetSubstitution (js "%{content}") (before_body (name shell_skill))
           after_body (content shell_skill)
      ++ after_body ++ [].
Proof.
  apply (X10_render_frame shell_skill []). vm_compute. reflexivity.
Defined.

(** X11. Whatever the two paths, the tool name begins with [skills_] and
    what follows holds neither a hyphen nor a slash. *)
Theorem X11_generateToolName_alphabet (skillPath baseDir : jsstring) :
  ∃ rest,
    generateToolName skillPath baseDir = js "skills_" ++ rest
    ∧ (Ch.HYPHEN ∉ rest) ∧ (Ch.SLASH ∉ rest).
Proof.
  unfold generateToolName. eexists. split; [done|].
  split; [apply replace_hyphens_no_hyphen|].
  apply replace_hyphens_plain; [done|].
  apply join_plain; [concrete_notin|].
  apply Forall_forall. intros w Hw.
  apply list_elem_of_filter in Hw as [_ Hw].
  pose proof (split_segments_free Ch.SLASH
                (Path.dirname (Path.relative baseDir skillPath))) as Hall.
  rewrite Forall_forall in Hall. by apply Hall.
Qed.

(** ** The record of tools *)

Section RegistryFacts.

Implicit Types (tools : gmap (list N) Tool) (skills pre post : list Skill)
               (skill : Skill) (id : jsstring).

Lemma register_dom tools skills :
  dom (foldl register tools skills)
  = dom tools ∪ list_to_set (toolName <$> skills).
Proof.
  revert tools. induction skills as [|skill skills IH]; intros tools.
  - simpl. set_solver.
  - cbn [foldl]. rewrite IH. unfold register. rewrite dom_insert_L.
    rewrite fmap_cons. cbn [list_to_set]. set_solver.
Qed.

Lemma register_other tools skills id :
  id ∉ toolName <$> skills →
  foldl register tools skills !! id = tools !! id.
Proof.
  revert tools. induction skills as [|skill skills IH]; intros tools Hid;
    [done|].
  rewrite fmap_cons in Hid. apply not_elem_of_cons in Hid as [Hne Hid].
  cbn [foldl]. rewrite IH by done. unfold register.
  by rewrite lookup_insert_ne.
Qed.

(** The last skill of a tool name is the one the record keeps. *)
Lemma register_last tools pre skill post :
  toolName skill ∉ toolName <$> post →
  foldl register tools (pre ++ skill :: post) !! toolName skill
  = Some (mkTool (description skill) skill).
Proof.
  intros Hpost. rewrite foldl_app. cbn [foldl].
  rewrite register_other by done. unfold register at 1.
  by rewrite lookup_insert_eq.
Qed.

(** The loop of duplicates and the loop of tools, run side by side: the
    names seen are the keys of the record, and every skill either adds a
    key or adds a duplicate. *)
Lemma register_detect tools skills (duplicates : list jsstring) :
  (foldl detect_step (dom tools, duplicates) skills).1
  = dom (foldl register tools skills)
  ∧ (size (foldl register tools skills)
     + length (foldl detect_step (dom tools, duplicates) skills).2
     = size tools + length duplicates + length skills)%nat.
Proof.
  revert tools duplicates.
  induction skills as [|skill skills IH]; intros tools duplicates.
  - simpl. split; [done|lia].
  - cbn [foldl detect_step length].
    assert (dom tools ∪ {[toolName skill]} = dom (register tools skill))
      as -> by (unfold register; rewrite dom_insert_L; set_solver).
    destruct (IH (register tools skill)
                (if bool_decide (toolName skill ∈ dom tools)
                 then duplicates ++ [toolName skill] else duplicates))
      as [-> Hsize].
    split; [done|]. rewrite Hsize. unfold register.
    case_bool_decide as Hin.
    + apply elem_of_dom in Hin.
      rewrite map_size_insert_Some, length_app by done.
      simpl. lia.
    + apply not_elem_of_dom in Hin.
      rewrite map_size_insert_None by done. lia.
Qed.

End RegistryFacts.

(** X12. The record of tools [SkillsPlugin] returns has one tool for
    every tool name among the discovered skills and no other; under a
    name it keeps the last skill discovered with that name, with that
    skill's description; its size and the number of duplicates that
    [discoverSkills] reports add up to the number of skills; and the
    plugin logs what discovery logs. *)
Theorem X12_SkillsPlugin_registry
    (fs : FileSystem) (matter : jsstring → Result (JsValue * jsstring))
    (directory homedir : jsstring) (XDG_CONFIG_HOME : option jsstring) :
  (∀ id,
     is_Some ((SkillsPlugin fs matter directory homedir XDG_CONFIG_HOME).1
                !! id)
     ↔ id ∈ discovered_ids fs matter
              (plugin_roots directory homedir XDG_CONFIG_HOME))
  ∧ (∀ pre skill post,
       (discoverSkills fs matter
          (plugin_roots directory homedir XDG_CONFIG_HOME)).1
       = pre ++ skill :: post →
       toolName skill ∉ toolName <$> post →
       (SkillsPlugin fs matter directory homedir XDG_CONFIG_HOME).1
         !! toolName skill
       = Some (mkTool (description skill) skill))
  ∧ (size (SkillsPlugin fs matter directory homedir XDG_CONFIG_HOME).1
     + length (discovered_duplicates fs matter
                 (plugin_roots directory homedir XDG_CONFIG_HOME))
     = length (discoverSkills fs matter
                 (plugin_roots directory homedir XDG_CONFIG_HOME)).1)%nat
  ∧ (SkillsPlugin fs matter directory homedir XDG_CONFIG_HOME).2
    = (discoverSkills fs matter
         (plugin_roots directory homedir XDG_CONFIG_HOME)).2.
Proof.
  unfold SkillsPlugin, discovered_ids, discovered_duplicates.
  rewrite console_bind_fst, console_bind_snd.
  set (skills := (discoverSkills fs matter _).1).
  cbn [console_ret fst snd]. split; [|split; [|split]].
  - intros id. rewrite <- elem_of_dom, register_dom, dom_empty_L.
    rewrite elem_of_union, elem_of_list_to_set. set_solver.
  - intros pre skill post -> Hpost. by apply register_last.
  - pose proof (register_detect ∅ skills []) as [_ Hsize].
    rewrite dom_empty_L in Hsize. unfold detect_duplicates.
    rewrite map_size_empty in Hsize. simpl in Hsize. lia.
  - by rewrite app_nil_r.
Qed.

(** ** The roots of the plugin *)

Section JoinFacts.

Implicit Types (s d : jsstring) (segs : list jsstring) (sep : N).

Lemma split_app sep (a b : jsstring) :
  split sep (a ++ sep :: b) = split sep a ++ split sep b.
Proof.
  induction a as [|c a IH].
  - simpl. by rewrite N.eqb_refl.
  - cbn [app split]. rewrite IH.
    destruct (c =? sep); [done|].
    pose proof (split_not_nil sep a) as Hne.
    by destruct (split sep a).
Qed.

Lemma foldl_normalize_push segs acc :
  Forall proper_segment segs →
  foldl Path.normalize_step acc segs = reverse segs ++ acc.
Proof.
  intros Hall. revert acc.
  induction Hall as [|seg segs (Hne & Hdot & Hdots & _) _ IH];
    intros acc; [done|].
  cbn [foldl]. unfold Path.normalize_step at 2.
  rewrite !bool_decide_eq_false_2 by done.
  by rewrite IH, reverse_cons, <- (assoc_L (++)).
Qed.

Lemma last_join_proper segs :
  segs ≠ [] → Forall proper_segment segs →
  last (join (js "/") segs) ≠ Some Ch.SLASH.
Proof.
  intros Hne Hall. destruct segs as [|w segs] using rev_ind; [done|].
  clear IHsegs. apply Forall_app in Hall as [_ Hw].
  apply Forall_singleton in Hw as (Hwne & _ & _ & Hfree).
  assert (last w ≠ Some Ch.SLASH) as Hlast.
  { intros Hl. apply Hfree. apply last_Some in Hl as [w' ->].
    apply elem_of_app. right. apply list_elem_of_here. }
  destruct w as [|c w] using rev_ind; [done|]. clear IHw.
  destruct segs as [|v segs].
  - done.
  - rewrite join_snoc by done.
    rewrite !(assoc_L (++)), last_snoc. by rewrite last_snoc in Hlast.
Qed.

(** Joining an absolute path with a relative path of proper segments
    appends the segments to the resolved path. *)
Lemma join_absolute d segs :
  head d = Some Ch.SLASH → segs ≠ [] → Forall proper_segment segs →
  Path.join [d; join (js "/") segs]
  = Path.absolute (Path.resolve d ++ segs).
Proof.
  intros Hd Hne Hall. destruct d as [|c d]; [done|].
  injection Hd as ->.
  destruct (join_proper_head segs) as (c & pre & Hjoin & Hc); [done..|].
  unfold Path.join.
  rewrite filter_cons_True by done.
  rewrite filter_cons_True by (by rewrite Hjoin).
  rewrite filter_nil. cbn [join].
  change ((Ch.SLASH :: d) ++ js "/" ++ join (js "/") segs)
    with (Ch.SLASH :: (d ++ Ch.SLASH :: join (js "/") segs)).
  unfold Path.normalize. rewrite N.eqb_refl. cbv zeta.
  change (Ch.SLASH :: (d ++ Ch.SLASH :: join (js "/") segs))
    with ((Ch.SLASH :: d) ++ Ch.SLASH :: join (js "/") segs).
  rewrite split_app, foldl_app.
  change (js "/") with [Ch.SLASH] at 1.
  rewrite split_join; [|done|by apply proper_chain_slash_free].
  rewrite foldl_normalize_push by done.
  rewrite reverse_app, reverse_involutive.
  fold (Path.resolve (Ch.SLASH :: d)).
  rewrite bool_decide_eq_false_2.
  2:{ rewrite last_app_cons, Hjoin, last_cons_cons, <- Hjoin.
      by apply last_join_proper. }
  destruct (join_proper_head (Path.resolve (Ch.SLASH :: d) ++ segs))
    as (c' & pre' & Hbody & _).
  { intros [_ ->]%app_eq_nil. done. }
  { apply Forall_app. split; [apply resolve_proper | done]. }
  unfold Path.absolute.
  change (join [Ch.SLASH]) with (join (js "/")).
  rewrite Hbody. by rewrite app_nil_r.
Qed.

End JoinFacts.

(** X13. With an absolute project directory, an absolute home directory
    and an [XDG_CONFIG_HOME] that is absolute when it is set and not
    empty, the plugin scans three absolute, normalized roots, in this
    order: [.opencode/skills] below the project directory,
    [.opencode/skills] below the home directory, and [opencode/skills]
    below [XDG_CONFIG_HOME], or [.config/opencode/skills] below the home
    directory when the variable is not set or is empty. *)
Theorem X13_plugin_roots
    (directory homedir : jsstring) (XDG_CONFIG_HOME : option jsstring) :
  head directory = Some Ch.SLASH →
  head homedir = Some Ch.SLASH →
  (∀ xdg, XDG_CONFIG_HOME = Some xdg → xdg ≠ [] →
          head xdg = Some Ch.SLASH) →
  plugin_roots directory homedir XDG_CONFIG_HOME
  = [ Path.absolute
        (Path.resolve directory ++ [js ".opencode"; js "skills"]);
      Path.absolute (Path.resolve homedir ++ [js ".opencode"; js "skills"]);
      match XDG_CONFIG_HOME with
      | Some (c :: xdg) =>
          Path.absolute
            (Path.resolve (c :: xdg) ++ [js "opencode"; js "skills"])
      | _ =>
          Path.absolute
            (Path.resolve homedir
               ++ [js ".config"; js "opencode"; js "skills"])
      end ].
Proof.
  intros Hdir Hhome Hxdg. unfold plugin_roots, configSkillsPath.
  assert (∀ segs : list jsstring, Forall proper_segment segs
          ↔ Forall (λ seg, bool_decide (seg ≠ []) && bool_decide (seg ≠ js ".")
                           && bool_decide (seg ≠ js "..")
                           && bool_decide (Ch.SLASH ∉ seg)) segs) as Hdec.
  { intros segs. apply Forall_proper; [|done]. intros seg.
    unfold proper_segment.
    rewrite !andb_True, !bool_decide_spec. naive_solver. }
  assert (Forall proper_segment [js ".opencode"; js "skills"]) as H1
    by (apply Hdec; repeat constructor).
  assert (Forall proper_segment [js ".config"; js "opencode"; js "skills"])
    as H2 by (apply Hdec; repeat constructor).
  assert (Forall proper_segment [js "opencode"; js "skills"]) as H3
    by (apply Hdec; repeat constructor).
  change (js ".opencode/skills")
    with (join (js "/") [js ".opencode"; js "skills"]).
  change (js ".config/opencode/skills")
    with (join (js "/") [js ".config"; js "opencode"; js "skills"]).
  change (js "opencode/skills")
    with (join (js "/") [js "opencode"; js "skills"]).
  rewrite !(join_absolute directory), !(join_absolute homedir) by done.
  do 2 f_equal. destruct XDG_CONFIG_HOME as [[|c xdg]|]; try done.
  f_equal. apply join_absolute; [|done..]. by apply (Hxdg (c :: xdg)).
Qed.

Lemma X13_plugin_roots_witness :
  plugin_roots (js "/w/proj/") (js "/home/u") (Some [])
  = [ Path.absolute
        (Path.resolve (js "/w/proj/") ++ [js ".opencode"; js "skills"]);
      Path.absolute
        (Path.resolve (js "/home/u") ++ [js ".opencode"; js "skills"]);
      Path.absolute
        (Path.resolve (js "/home/u")
           ++ [js ".config"; js "opencode"; js "skills"]) ].
Proof.
  apply (X13_plugin_roots (js "/w/proj/") (js "/home/u") (Some []));
    [reflexivity | reflexivity | by intros xdg [= <-]].
Defined.

(** ** Roots that cannot be scanned, and roots side by side *)

Section RootFacts.

Context {A B : Type}.
Implicit Types (body : A → B → Console A) (acc : A) (xs ys : list B).

(** An element on which the body does nothing can be left out of the
    loop. *)
Lemma console_fold_skip body acc xs x ys :
  (∀ a, body a x = console_ret a) →
  console_fold body acc (xs ++ x :: ys) = console_fold body acc (xs ++ ys).
Proof.
  intros Hskip. revert acc. induction xs as [|x' xs IH]; intros acc.
  - cbn [app console_fold]. rewrite Hskip. unfold console_bind, console_ret.
    by destruct (console_fold body acc ys).
  - cbn [app console_fold]. unfold console_bind.
    destruct (body acc x') as [acc' l1]. by rewrite IH.
Qed.

End RootFacts.

(** X14. A root that is not a directory of the file system is passed
    over in silence: with it or without it among the roots,
    [discoverSkills] returns the same skills and writes the same log. *)
Theorem X14_discoverSkills_missing_root
    (fs : FileSystem) (matter : jsstring → Result (JsValue * jsstring))
    (roots1 roots2 : list jsstring) (root : jsstring) :
  lookup_dir fs (Path.resolve root) = None →
  discoverSkills fs matter (roots1 ++ root :: roots2)
  = discoverSkills fs matter (roots1 ++ roots2).
Proof.
  intros Hmissing. unfold discoverSkills.
  rewrite console_fold_skip; [done|].
  intros skills. unfold collect_root, scan. by rewrite Hmissing.
Qed.

Lemma X14_discoverSkills_missing_root_witness :
  discoverSkills demo_fs demo_matter
    ([js "/r/skills"; js "/home/skills"]
       ++ js "/missing/skills" :: [js "/etc/skills"])
  = discoverSkills demo_fs demo_matter
      ([js "/r/skills"; js "/home/skills"] ++ [js "/etc/skills"]).
Proof.
  apply X14_discoverSkills_missing_root. vm_compute. reflexivity.
Defined.

(** X15. Discovery over two lists of roots, one after the other, returns
    the skills of the first list followed by the skills of the second;
    a tool name is then reported as a duplicate as often as it occurs in
    all, less one. *)
Theorem X15_discoverSkills_app
    (fs : FileSystem) (matter : jsstring → Result (JsValue * jsstring))
    (roots1 roots2 : list jsstring) :
  (discoverSkills fs matter (roots1 ++ roots2)).1
  = (discoverSkills fs matter roots1).1
      ++ (discoverSkills fs matter roots2).1
  ∧ ∀ id,
      occurrences id (discovered_duplicates fs matter (roots1 ++ roots2))
      = pred (occurrences id (discovered_ids fs matter roots1)
              + occurrences id (discovered_ids fs matter roots2)).
Proof.
  assert ((discoverSkills fs matter (roots1 ++ roots2)).1
          = (discoverSkills fs matter roots1).1
              ++ (discoverSkills fs matter roots2).1) as Happ.
  { rewrite !discoverSkills_fst. unfold parse_results.
    by rewrite bind_app. }
  split; [done|]. intros id.
  unfold discovered_duplicates, discovered_ids.
  rewrite detect_duplicates_occurrences, Happ, fmap_app.
  by rewrite occurrences_app.
Qed.

(** X16. For a skill whose name the schema accepts, a body without a
    dollar sign and paths without a dollar sign, the payload is the first
    template around the name and the body, followed, exactly when there
    are resources, by two line feeds and the second template around the
    name and the paths, one per line, in the order and as often as they
    are listed. *)
Theorem X16_render_plain (skill : Skill) (paths : list jsstring) :
  name_regex_test (name skill) = true →
  Ch.DOLLAR ∉ content skill →
  Forall (λ found, Ch.DOLLAR ∉ found) paths →
  render skill paths
  = skill_block (name skill) (content skill)
      ++ match paths with
         | [] => []
         | _ => [Ch.LF; Ch.LF] ++ resources_block (name skill) paths
         end
  ∧ (paths = [] → render skill paths
                  = skill_block (name skill) (content skill)).
Proof.
  intros Hname Hcontent Hpaths.
  pose proof (render_dollar_free skill paths Hname Hcontent Hpaths) as Heq.
  unfold spec_payload in Heq. split; [done|].
  intros ->. by rewrite Heq, app_nil_r.
Qed.

Lemma X16_render_plain_witness :
  render tool_skill [js "/b/tool/notes.txt"; js "/b/tool/notes.txt"]
  = skill_block (name tool_skill) (content tool_skill)
      ++ [Ch.LF; Ch.LF]
      ++ resources_block (name tool_skill)
           [js "/b/tool/notes.txt"; js "/b/tool/notes.txt"]
  ∧ ([js "/b/tool/notes.txt"; js "/b/tool/notes.txt"] = [] →
     render tool_skill [js "/b/tool/notes.txt"; js "/b/tool/notes.txt"]
     = skill_block (name tool_skill) (content tool_skill)).
Proof.
  apply (X16_render_plain tool_skill
           [js "/b/tool/notes.txt"; js "/b/tool/notes.txt"]).
  - vm_compute. reflexivity.
  - concrete_notin.
  - repeat constructor; concrete_notin.
Defined.
